(** * Disk I/O scheduling simulator: FCFS, SSTF, SCAN and C-SCAN

    A shallow embedding of the scheduling methods of class [Disk] in
    [src/disksimulation.py] and of the two sweep methods of the second
    [Disk] class in [src/workload_starvation_demo.py], with the properties
    of the specification stated and settled over them.

    Python integers are [Z]; Python lists of integers are [list Z];
    the direction token is a [string].  Printing is omitted: it reads the
    loop variables but never writes them.  The [while] loops are run with
    an explicit iteration budget, and every statement about a returned
    result comes with the budget that suffices. *)

From Stdlib Require Import ZArith QArith Lia.
From stdpp Require Import list sets sorting strings.
Close Scope Q_scope.
Local Open Scope Z_scope.

(* ===================================================================== *)
(** ** Python built-ins used by the schedulers                            *)
(* ===================================================================== *)

(** [min(l, key=key)]: the scan keeps the first element and replaces it
    only by a strictly smaller key, so the earliest minimum is returned.
    [None] stands for the [ValueError] raised on an empty list. *)
Definition min_by (key : Z -> Z) (l : list Z) : option Z :=
  match l with
  | [] => None
  | x :: xs =>
      Some (fold_left (fun best y => if key y <? key best then y else best) xs x)
  end.

(** [min(l)] *)
Definition py_min (l : list Z) : option Z := min_by (fun x => x) l.

(** [max(l)]: replaced only by a strictly greater element. *)
Definition py_max (l : list Z) : option Z :=
  match l with
  | [] => None
  | x :: xs => Some (fold_left (fun best y => if best <? y then y else best) xs x)
  end.

(** [l.remove(x)]: deletes the first occurrence of [x].  Python raises
    [ValueError] when [x] does not occur; the schedulers only ever remove
    an element they have just drawn from the same list (lemmas
    [min_by_elem_of] and [py_max_elem_of] below), so that case is left as
    the identity. *)
Fixpoint remove_first (x : Z) (l : list Z) : list Z :=
  match l with
  | [] => []
  | y :: l' => if Z.eqb y x then l' else y :: remove_first x l'
  end.

(** [sorted(l)] on integers. *)
Definition sorted (l : list Z) : list Z := merge_sort Z.le l.

(** [sum(l)] *)
Definition sum (l : list Z) : Z := foldr Z.add 0 l.

(** The per-step displacements obtained by walking the head from [h]
    through the cylinders of [l] in order. *)
Fixpoint walk (h : Z) (l : list Z) : list Z :=
  match l with
  | [] => []
  | x :: l' => Z.abs (h - x) :: walk x l'
  end.

(** *** True division of integers

    [a / b] on two Python integers is the IEEE-754 double nearest to the
    exact quotient, ties going to the even significand, and raises
    [OverflowError] when that double would lie beyond the largest finite
    one.  A finite double is [m * 2 ^ p] with [|m| <= 2 ^ 53] and
    [-1074 <= p]; it is kept here as the rational number it denotes. *)

(** [x * 2 ^ k] for [0 <= k], and [x] itself for a negative [k]. *)
Definition scale (x k : Z) : Z := x * 2 ^ Z.max 0 k.

(** The integer nearest to [n / dn], ties to the even one
    ([0 <= n], [0 < dn]). *)
Definition round_half_even (n dn : Z) : Z :=
  let fl := n / dn in
  let r := n mod dn in
  if 2 * r <? dn then fl
  else if dn <? 2 * r then fl + 1
  else if Z.even fl then fl else fl + 1.

(** [floor (log2 (a / b))] for [0 < a] and [0 < b]. *)
Definition quotient_exponent (a b : Z) : Z :=
  let k := Z.log2 a - Z.log2 b in
  if scale b k <=? scale a (- k) then k else k - 1.

(** [a / b] for [0 < b]; [None] stands for the [OverflowError].  The
    significand [m] is the quotient rounded at the binary position [p] of
    its last bit (never below the subnormal position [-1074]); the result
    overflows when [m * 2 ^ p] reaches [2 ^ 1024], which needs [0 <= p]
    ([2 ^ p] is [0] in [Z] for a negative [p]). *)
Definition true_divide (a b : Z) : option Q :=
  if a =? 0 then Some 0%Q
  else
    let e := quotient_exponent (Z.abs a) b in
    let p := Z.max (e - 52) (-1074) in
    let m := round_half_even (scale (Z.abs a) (- p)) (scale b p) in
    if 2 ^ 1024 <=? m * 2 ^ p then None
    else Some (Qmake (Z.sgn a * scale m p) (Z.to_pos (scale 1 (- p)))).

(** [while cond: body], run for at most [fuel] iterations of the body;
    [None] when the loop is still running after [fuel] iterations. *)
Fixpoint while_loop {S : Type} (cond : S -> bool) (body : S -> S)
    (fuel : nat) (s : S) : option S :=
  match fuel with
  | O => if cond s then None else Some s
  | Datatypes.S n => if cond s then while_loop cond body n (body s) else Some s
  end.

(* ===================================================================== *)
(** ** Data model                                                         *)
(* ===================================================================== *)

(** The attributes set by [Disk.__init__].  [original_requests] is a second
    copy of [request_queue], read only by the comparison table. *)
Record Disk : Type := mkDisk {
  total_cylinders : Z;
  current_head : Z;
  request_queue : list Z
}.

(** The dictionary returned by each scheduling method.  [average_seek] is
    the float [total_movement / len(requests)], or the integer [0]. *)
Record ScheduleResult : Type := mkResult {
  algorithm : string;
  total_movement : Z;
  average_seek : Q;
  sequence : list Z;
  movements : list Z;
  final_position : Z;
  direction : option string
}.

(** The local variables of a scheduling method. *)
Record State : Type := mkState {
  st_current_head : Z;
  st_requests : list Z;
  st_total_movement : Z;
  st_sequence : list Z;
  st_movements : list Z;
  st_current_direction : string
}.

Definition set_head (h : Z) (s : State) : State :=
  mkState h (st_requests s) (st_total_movement s) (st_sequence s)
          (st_movements s) (st_current_direction s).

Definition set_requests (l : list Z) (s : State) : State :=
  mkState (st_current_head s) l (st_total_movement s) (st_sequence s)
          (st_movements s) (st_current_direction s).

Definition add_total (m : Z) (s : State) : State :=
  mkState (st_current_head s) (st_requests s) (st_total_movement s + m)
          (st_sequence s) (st_movements s) (st_current_direction s).

Definition set_direction (d : string) (s : State) : State :=
  mkState (st_current_head s) (st_requests s) (st_total_movement s)
          (st_sequence s) (st_movements s) d.

(** The block repeated in every branch of every method:
<<
    movement = abs(current_head - target)
    total_movement += movement
    sequence.append(target)
    movements.append(movement)
    current_head = target
>> *)
Definition visit (target : Z) (s : State) : State :=
  let movement := Z.abs (st_current_head s - target) in
  mkState target (st_requests s) (st_total_movement s + movement)
          (st_sequence s ++ [target]) (st_movements s ++ [movement])
          (st_current_direction s).

(** The same block followed by [requests.remove(target)]. *)
Definition serve (target : Z) (s : State) : State :=
  set_requests (remove_first target (st_requests s)) (visit target s).

(** The state at the top of a method: [requests] is a copy of the queue. *)
Definition initial (d : Disk) (dir : string) : State :=
  mkState (current_head d) (request_queue d) 0 [] [] dir.

(** [while requests:] *)
Definition pending (s : State) : bool :=
  match st_requests s with [] => false | _ :: _ => true end.

(** [total_movement / len(q) if q else 0]; [None] is the [OverflowError]
    of the division. *)
Definition average (total : Z) (q : list Z) : option Q :=
  match q with
  | [] => Some 0%Q
  | _ :: _ => true_divide total (Z.of_nat (length q))
  end.

(** What a call of a scheduling method does: it returns its dictionary,
    raises an exception, or is still inside its loop when the iteration
    budget is spent. *)
Inductive outcome : Type :=
| Returns (r : ScheduleResult)
| Raises (exception : string) (message : string)
| Running.

(** The dictionary built from the loop variables and the average. *)
Definition result_of (name : string) (dir : option string) (average_seek : Q)
    (s : State) : ScheduleResult :=
  mkResult name (st_total_movement s) average_seek
           (st_sequence s) (st_movements s) (st_current_head s) dir.

(** The end of every method, after its loop: the average is computed over
    the original queue [q], which can raise, and the dictionary is
    returned. *)
Definition conclude (name : string) (dir : option string) (q : list Z)
    (s : State) : outcome :=
  match average (st_total_movement s) q with
  | Some average_seek => Returns (result_of name dir average_seek s)
  | None => Raises "OverflowError" "integer division result too large for a float"
  end.

(* ===================================================================== *)
(** ** The four schedulers of [src/disksimulation.py]                     *)
(* ===================================================================== *)

(** [for request in l:] around the visiting block. *)
Definition visit_all (l : list Z) (s : State) : State :=
  fold_left (fun s request => visit request s) l s.

(** [Disk.fcfs_schedule]: a [for] loop over the copied queue. *)
Definition fcfs_schedule (d : Disk) : outcome :=
  conclude "FCFS" None (request_queue d)
    (visit_all (request_queue d) (initial d "")).

(** One iteration of the loop of [Disk.sstf_schedule]. *)
Definition sstf_body (s : State) : State :=
  match min_by (fun x => Z.abs (x - st_current_head s)) (st_requests s) with
  | Some closest_request => serve closest_request s
  | None => s
  end.

Definition sstf_schedule (fuel : nat) (d : Disk) : outcome :=
  match while_loop pending sstf_body fuel (initial d "") with
  | Some s => conclude "SSTF" None (request_queue d) s
  | None => Running
  end.

(** One iteration of the loop of [Disk.scan_schedule]; every token other
    than ['right'] takes the [else] branch. *)
Definition scan_body (total : Z) (s : State) : State :=
  if String.eqb (st_current_direction s) "right" then
    let right_requests :=
      filter (fun r => st_current_head s <= r) (st_requests s) in
    match py_min right_requests with
    | Some next_request => serve next_request s
    | None => set_direction "left" (visit (total - 1) s)
    end
  else
    let left_requests :=
      filter (fun r => r <= st_current_head s) (st_requests s) in
    match py_max left_requests with
    | Some next_request => serve next_request s
    | None => set_direction "right" (visit 0 s)
    end.

Definition scan_schedule (fuel : nat) (d : Disk) (dir : string) : outcome :=
  match while_loop pending (scan_body (total_cylinders d)) fuel (initial d dir) with
  | Some s => conclude "SCAN" (Some dir) (request_queue d) s
  | None => Running
  end.

(** One iteration of the loop of [Disk.c_scan_schedule].  At the end of a
    sweep the boundary is visited, then the jump is added to
    [total_movement] only and the head is placed on the other boundary. *)
Definition c_scan_body (total : Z) (s : State) : State :=
  if String.eqb (st_current_direction s) "right" then
    let right_requests :=
      filter (fun r => st_current_head s <= r) (st_requests s) in
    match py_min right_requests with
    | Some next_request => serve next_request s
    | None => set_head 0 (add_total (total - 1) (visit (total - 1) s))
    end
  else
    let left_requests :=
      filter (fun r => r <= st_current_head s) (st_requests s) in
    match py_max left_requests with
    | Some next_request => serve next_request s
    | None => set_head (total - 1) (add_total (total - 1) (visit 0 s))
    end.

Definition c_scan_schedule (fuel : nat) (d : Disk) (dir : string) : outcome :=
  match while_loop pending (c_scan_body (total_cylinders d)) fuel (initial d dir) with
  | Some s => conclude "C-SCAN" (Some dir) (request_queue d) s
  | None => Running
  end.

(* ===================================================================== *)
(** ** The sweep methods of [src/workload_starvation_demo.py]             *)
(* ===================================================================== *)

Module Workload.

(** The loop variables [(current_head, total_movement, sequence)]. *)
Definition step (acc : Z * Z * list Z) (r : Z) : Z * Z * list Z :=
  let '(current_head, total_movement, sequence) := acc in
  (r, total_movement + Z.abs (current_head - r), sequence ++ [r]).

(** [Disk.scan_schedule]: returns [(total_movement, sequence)]. *)
Definition scan_schedule (d : Disk) (dir : string) : Z * list Z :=
  let requests := sorted (request_queue d) in
  let order :=
    if String.eqb dir "right" then
      let right := filter (fun r => current_head d <= r) requests in
      let left := reverse (filter (fun r => r < current_head d) requests) in
      right ++ left
    else
      let left := reverse (filter (fun r => r <= current_head d) requests) in
      let right := filter (fun r => current_head d < r) requests in
      left ++ right in
  let '(_, total_movement, sequence) :=
    fold_left step order (current_head d, 0, []) in
  (total_movement, sequence).

(** [Disk.c_scan_schedule]: there is no [else] branch. *)
Definition c_scan_schedule (d : Disk) (dir : string) : Z * list Z :=
  let requests := sorted (request_queue d) in
  let start := (current_head d, 0, @nil Z) in
  let '(_, total_movement, sequence) :=
    if String.eqb dir "right" then
      let right := filter (fun r => current_head d <= r) requests in
      let left := filter (fun r => r < current_head d) requests in
      let '(current_head, total_movement, sequence) :=
        fold_left step right start in
      match left with
      | [] => (current_head, total_movement, sequence)
      | _ :: _ =>
          fold_left step left
            (0, total_movement + Z.abs (current_head - (total_cylinders d - 1)),
             sequence)
      end
    else start in
  (total_movement, sequence).

(** [Disk.fcfs_schedule] of the demo. *)
Definition fcfs_schedule (d : Disk) : Z * list Z :=
  let '(_, total_movement, sequence) :=
    fold_left step (request_queue d) (current_head d, 0, []) in
  (total_movement, sequence).

(** The loop of the demo's [Disk.sstf_schedule], on the variables
    [(current_head, requests, total_movement, sequence)]. *)
Definition sstf_pending (acc : Z * list Z * Z * list Z) : bool :=
  let '(_, requests, _, _) := acc in
  match requests with [] => false | _ :: _ => true end.

Definition sstf_body (acc : Z * list Z * Z * list Z) : Z * list Z * Z * list Z :=
  let '(current_head, requests, total_movement, sequence) := acc in
  match min_by (fun x => Z.abs (x - current_head)) requests with
  | Some closest =>
      (closest, remove_first closest requests,
       total_movement + Z.abs (current_head - closest), sequence ++ [closest])
  | None => acc
  end.

Definition sstf_schedule (fuel : nat) (d : Disk) : option (Z * list Z) :=
  (fun '(_, _, total_movement, sequence) => (total_movement, sequence))
    <$> while_loop sstf_pending sstf_body fuel
          (current_head d, request_queue d, 0, []).

End Workload.

(* ===================================================================== *)
(** ** Display helpers and the main program of [src/disksimulation.py]    *)
(* ===================================================================== *)

(** [range(0, stop, step)] for a positive [step]. *)
Definition py_range (stop step : Z) : list Z :=
  (fun k => step * k) <$> seqZ 0 ((stop + step - 1) / step).

(** The rows printed by [Disk.visualize_disk]: the cylinder that heads the
    row and whether the row carries the head marker. *)
Definition visualize_disk (d : Disk) : list (Z * bool) :=
  (fun i => (i, bool_decide (i <= current_head d < i + 25)))
    <$> py_range (total_cylinders d) 25.

(** The same method in [src/disk_model.py], where the marker is put on the
    row whose heading cylinder is the head itself. *)
Module DiskModel.

Definition visualize_disk (d : Disk) : list (Z * bool) :=
  (fun i => (i, bool_decide (i = current_head d)))
    <$> py_range (total_cylinders d) 25.

End DiskModel.

(** [min(l, key=key)] on any items. *)
Definition min_with {A : Type} (key : A -> Z) (l : list A) : option A :=
  match l with
  | [] => None
  | x :: xs =>
      Some (fold_left (fun best y => if key y <? key best then y else best) xs x)
  end.

(** The exceptions [Disk.display_comprehensive_comparison] can raise. *)
Inductive exception : Type := ValueError | ZeroDivisionError.

(** [(min_movement / results['total_movement']) * 100], the quotient kept
    exact; division by a zero total raises. *)
Definition efficiency (min_movement : Z) (results : ScheduleResult)
    : exception + Q :=
  if total_movement results =? 0 then inl ZeroDivisionError
  else inr (inject_Z min_movement / inject_Z (total_movement results) * 100)%Q.

(** The table rows before formatting: name, total movement, average seek,
    final position, efficiency.  [all_results] is the dictionary as its
    items in insertion order. *)
Fixpoint table_rows (min_movement : Z) (all_results : list (string * ScheduleResult))
    : exception + list (string * Z * Q * Z * Q) :=
  match all_results with
  | [] => inr []
  | (algo_name, results) :: rest =>
      match efficiency min_movement results with
      | inl e => inl e
      | inr eff =>
          match table_rows min_movement rest with
          | inl e => inl e
          | inr rows =>
              inr ((algo_name, total_movement results, average_seek results,
                    final_position results, eff) :: rows)
          end
      end
  end.

(** [Disk.display_comprehensive_comparison]: the table it prints and the
    best algorithm it recommends, or the exception it raises before
    printing anything. *)
Definition display_comprehensive_comparison
    (all_results : list (string * ScheduleResult))
    : exception + (list (string * Z * Q * Z * Q) * (string * ScheduleResult)) :=
  match py_min ((fun item => total_movement (snd item)) <$> all_results) with
  | None => inl ValueError
  | Some min_movement =>
      match table_rows min_movement all_results with
      | inl e => inl e
      | inr rows =>
          match min_with (fun item => total_movement (snd item)) all_results with
          | None => inl ValueError
          | Some best_algo => inr (rows, best_algo)
          end
      end
  end.

(** The dictionary the main program builds for a disk: the four
    algorithms in this order, the two sweeps toward ['right'].  [None]
    when one of the four calls does not return, so that the program never
    reaches the comparison. *)
Definition all_results (fuel : nat) (d : Disk)
    : option (list (string * ScheduleResult)) :=
  match fcfs_schedule d, sstf_schedule fuel d,
        scan_schedule fuel d "right", c_scan_schedule fuel d "right" with
  | Returns fcfs_results, Returns sstf_results,
    Returns scan_results, Returns c_scan_results =>
      Some [("FCFS", fcfs_results); ("SSTF", sstf_results);
            ("SCAN", scan_results); ("C-SCAN", c_scan_results)]
  | _, _, _, _ => None
  end.

(* ===================================================================== *)
(** ** Input validity, as the specification defines it                    *)
(* ===================================================================== *)

Definition in_range (total x : Z) : Prop := 0 <= x <= total - 1.

Record valid (d : Disk) : Prop := mkValid {
  valid_geometry : 0 < total_cylinders d;
  valid_head : in_range (total_cylinders d) (current_head d);
  valid_requests : Forall (in_range (total_cylinders d)) (request_queue d)
}.

(** The boundary at which a sweep started in direction [dir] ends. *)
Definition boundary (d : Disk) (dir : string) : Z :=
  if String.eqb dir "right" then total_cylinders d - 1 else 0.

(** The requests a sweep started at [current_head] in direction [dir]
    passes, and the ones it leaves behind. *)
Definition ahead (d : Disk) (dir : string) : list Z :=
  if String.eqb dir "right"
  then filter (fun r => current_head d <= r) (request_queue d)
  else filter (fun r => r <= current_head d) (request_queue d).

Definition behind (d : Disk) (dir : string) : list Z :=
  if String.eqb dir "right"
  then filter (fun r => r < current_head d) (request_queue d)
  else filter (fun r => current_head d < r) (request_queue d).

(** C-SCAN makes its wrap jump exactly when some request lies behind. *)
Definition wraps (d : Disk) (dir : string) : bool :=
  match behind d dir with [] => false | _ :: _ => true end.

(** The order in which the first sweep services the requests ahead. *)
Definition outward_leg (d : Disk) (dir : string) : list Z :=
  if String.eqb dir "right" then sorted (ahead d dir)
  else reverse (sorted (ahead d dir)).

(** The order in which SCAN, having reversed, services the requests behind. *)
Definition scan_return_leg (d : Disk) (dir : string) : list Z :=
  if String.eqb dir "right" then reverse (sorted (behind d dir))
  else sorted (behind d dir).

(** The order in which C-SCAN, having jumped, services the requests behind. *)
Definition c_scan_second_leg (d : Disk) (dir : string) : list Z :=
  if String.eqb dir "right" then sorted (behind d dir)
  else reverse (sorted (behind d dir)).

(** The closed form of the state in which SCAN leaves its loop on a valid
    disk (lemma [scan_run]). *)
Definition scan_end (d : Disk) (dir : string) : State :=
  let s1 := visit_all (outward_leg d dir) (initial d dir) in
  set_requests []
    (if wraps d dir
     then visit_all (scan_return_leg d dir)
            (set_direction (if String.eqb dir "right" then "left" else "right")
               (visit (boundary d dir) s1))
     else s1).

(** The closed form of the state in which C-SCAN leaves its loop on a valid
    disk (lemma [c_scan_run]). *)
Definition c_scan_end (d : Disk) (dir : string) : State :=
  let s1 := visit_all (outward_leg d dir) (initial d dir) in
  set_requests []
    (if wraps d dir
     then visit_all (c_scan_second_leg d dir)
            (set_head (if String.eqb dir "right" then 0 else total_cylinders d - 1)
               (add_total (total_cylinders d - 1) (visit (boundary d dir) s1)))
     else s1).

(** Where the head stands after walking from [h] through [l]. *)
Definition arrive (h : Z) (l : list Z) : Z := default h (last l).

(** The accounting a run from head [h0] keeps when every displacement it
    adds to the total is also recorded: the movements are those of walking
    the sequence from [h0], the total is their sum, and the head stands at
    the end of the sequence. *)
Definition tallied (h0 : Z) (s : State) : Prop :=
  st_movements s = walk h0 (st_sequence s)
  /\ st_total_movement s = sum (st_movements s)
  /\ st_current_head s = arrive h0 (st_sequence s).

(** What every branch of every loop keeps: one movement per entry of the
    sequence, none of them negative. *)
Definition recorded (s : State) : Prop :=
  length (st_movements s) = length (st_sequence s)
  /\ Forall (fun m => 0 <= m) (st_movements s).

(** The head, the visited cylinders and the remaining requests all lie on
    a disk of [total] cylinders. *)
Definition on_disk (total : Z) (s : State) : Prop :=
  in_range total (st_current_head s)
  /\ Forall (in_range total) (st_sequence s)
  /\ Forall (in_range total) (st_requests s).

(** Every request of [q], with its multiplicity, is either in the
    sequence already or still in the working copy. *)
Definition covers (q : list Z) (s : State) : Prop :=
  q ⊆+ st_sequence s ++ st_requests s.

(** The lowest cylinder among the head and the requests. *)
Definition bottom (d : Disk) : Z := foldr Z.min (current_head d) (request_queue d).

(** The highest cylinder among the head and the requests. *)
Definition top (d : Disk) : Z := foldr Z.max (current_head d) (request_queue d).

(** The service order SSTF must produce from head [h] and remaining queue
    [l]: at each step the serviced element [x] is strictly closer than
    everything before it in the remaining queue and at least as close as
    everything after it, and the next step runs on the queue with that one
    occurrence taken out. *)
Inductive sstf_order : Z -> list Z -> list Z -> Prop :=
| sstf_order_nil h : sstf_order h [] []
| sstf_order_cons h before x after rest :
    Forall (fun y => Z.abs (x - h) < Z.abs (y - h)) before ->
    Forall (fun y => Z.abs (x - h) <= Z.abs (y - h)) after ->
    sstf_order x (before ++ after) rest ->
    sstf_order h (before ++ x :: after) (x :: rest).





(** The boundary on which C-SCAN lands after its jump. *)
Definition landing (d : Disk) (dir : string) : Z :=
  if String.eqb dir "right" then 0 else total_cylinders d - 1.

Definition example_disk : Disk := mkDisk 200 50 [82; 170; 43; 140; 24; 16; 190].

(** A valid disk whose only request is [10 ** 400 - 1] cylinders away. *)
Definition wide_disk : Disk := mkDisk (10 ^ 400) 0 [10 ^ 400 - 1].

(* ===================================================================== *)
(** ** Facts about the built-ins                                          *)
(* ===================================================================== *)

Section Builtins.

Implicit Types (l : list Z) (x m h : Z).

Lemma min_by_split key l m :
  min_by key l = Some m ->
  exists l1 l2, l = l1 ++ m :: l2
    /\ Forall (fun y => key m < key y) l1
    /\ Forall (fun y => key m <= key y) l2.
Proof.
  destruct l as [|x xs]; [discriminate|]. simpl. intros [= <-].
  induction xs as [|y ys IH] using rev_ind.
  - exists [], []. simpl. auto.
  - rewrite fold_left_app. simpl.
    destruct IH as (l1 & l2 & Heq & H1 & H2).
    set (b := fold_left _ ys x) in *.
    destruct (Z.ltb_spec (key y) (key b)) as [Hlt|Hge].
    + exists (x :: ys), []. split; [reflexivity|]. split; [|constructor].
      rewrite Heq. apply Forall_app. split.
      * eapply Forall_impl; [exact H1|]. simpl. intros; lia.
      * constructor; [lia|]. eapply Forall_impl; [exact H2|]. simpl. intros; lia.
    + exists l1, (l2 ++ [y]). split.
      * rewrite app_comm_cons, Heq, <- app_assoc. reflexivity.
      * split; [exact H1|]. apply Forall_app. split; [exact H2|]. auto.
Qed.

Lemma min_by_elem_of key l m : min_by key l = Some m -> m ∈ l.
Proof.
  intros (l1 & l2 & -> & _)%min_by_split. set_solver.
Qed.

Lemma min_by_least key l m y :
  min_by key l = Some m -> y ∈ l -> key m <= key y.
Proof.
  intros (l1 & l2 & -> & H1 & H2)%min_by_split Hy.
  rewrite Forall_forall in H1, H2.
  apply elem_of_app in Hy as [Hy|Hy]; [apply H1 in Hy; lia|].
  apply elem_of_cons in Hy as [->|Hy]; [lia|auto].
Qed.

Lemma min_by_is_Some key l : l <> [] -> is_Some (min_by key l).
Proof. destruct l; [done|]. intros _. simpl. eauto. Qed.

Lemma py_max_split l m :
  py_max l = Some m ->
  exists l1 l2, l = l1 ++ m :: l2
    /\ Forall (fun y => y < m) l1 /\ Forall (fun y => y <= m) l2.
Proof.
  destruct l as [|x xs]; [discriminate|]. simpl. intros [= <-].
  induction xs as [|y ys IH] using rev_ind.
  - exists [], []. simpl. auto.
  - rewrite fold_left_app. simpl.
    destruct IH as (l1 & l2 & Heq & H1 & H2).
    set (b := fold_left _ ys x) in *.
    destruct (Z.ltb_spec b y) as [Hlt|Hge].
    + exists (x :: ys), []. split; [reflexivity|]. split; [|constructor].
      rewrite Heq. apply Forall_app. split.
      * eapply Forall_impl; [exact H1|]. simpl. intros; lia.
      * constructor; [lia|]. eapply Forall_impl; [exact H2|]. simpl. intros; lia.
    + exists l1, (l2 ++ [y]). split.
      * rewrite app_comm_cons, Heq, <- app_assoc. reflexivity.
      * split; [exact H1|]. apply Forall_app. split; [exact H2|]. auto.
Qed.

Lemma py_max_elem_of l m : py_max l = Some m -> m ∈ l.
Proof.
  intros (l1 & l2 & -> & _)%py_max_split. set_solver.
Qed.

Lemma py_max_greatest l m y : py_max l = Some m -> y ∈ l -> y <= m.
Proof.
  intros (l1 & l2 & -> & H1 & H2)%py_max_split Hy.
  rewrite Forall_forall in H1, H2.
  apply elem_of_app in Hy as [Hy|Hy]; [apply H1 in Hy; lia|].
  apply elem_of_cons in Hy as [->|Hy]; [lia|auto].
Qed.

Lemma py_max_None l : py_max l = None -> l = [].
Proof. destruct l; [done|discriminate]. Qed.

Lemma remove_first_split l1 l2 x :
  x ∉ l1 -> remove_first x (l1 ++ x :: l2) = l1 ++ l2.
Proof.
  induction l1 as [|y l1 IH]; simpl; intros Hx.
  - rewrite Z.eqb_refl. reflexivity.
  - apply not_elem_of_cons in Hx as [Hne Hx].
    destruct (Z.eqb_spec y x); [congruence|]. rewrite IH; auto.
Qed.

Lemma remove_first_Permutation l x : x ∈ l -> l ≡ₚ x :: remove_first x l.
Proof.
  induction l as [|y l IH]; [intros ?%elem_of_nil; done|].
  simpl. destruct (Z.eqb_spec y x) as [->|Hne]; [reflexivity|].
  intros [?|Hx]%elem_of_cons; [congruence|].
  rewrite (IH Hx) at 1. apply Permutation_swap.
Qed.

Lemma filter_remove_first_False (P : Z -> Prop) `{!forall x, Decision (P x)} l x :
  ~ P x -> filter P (remove_first x l) = filter P l.
Proof.
  intros HP. induction l as [|y l IH]; [reflexivity|]. simpl.
  destruct (Z.eqb_spec y x) as [->|Hne].
  - rewrite filter_cons_False; auto.
  - rewrite !filter_cons, IH. reflexivity.
Qed.

Lemma filter_remove_first_True (P : Z -> Prop) `{!forall x, Decision (P x)} l x :
  P x -> x ∈ l -> filter P l ≡ₚ x :: filter P (remove_first x l).
Proof.
  intros HP Hx. rewrite (remove_first_Permutation l x Hx) at 1.
  rewrite filter_cons_True; auto.
Qed.

(** Two filters that agree on the elements of the list. *)
Lemma filter_ext_in (P Q : Z -> Prop)
    `{!forall x, Decision (P x), !forall x, Decision (Q x)} l :
  (forall x, x ∈ l -> P x <-> Q x) -> filter P l = filter Q l.
Proof.
  induction l as [|y l IH]; [reflexivity|]. intros Hext.
  rewrite !filter_cons, IH
    by (intros x Hx; apply Hext, list_elem_of_further, Hx).
  assert (P y <-> Q y) as Hy by apply Hext, list_elem_of_here.
  destruct (decide (P y)), (decide (Q y)); first [reflexivity | tauto].
Qed.

Lemma filter_all (P : Z -> Prop) `{!forall x, Decision (P x)} l :
  Forall P l -> filter P l = l.
Proof.
  induction 1 as [|y l HP _ IH]; [reflexivity|].
  rewrite filter_cons_True, IH; auto.
Qed.

Lemma filter_none (P : Z -> Prop) `{!forall x, Decision (P x)} l :
  Forall (fun x => ~ P x) l -> filter P l = [].
Proof.
  induction 1 as [|y l HP _ IH]; [reflexivity|].
  rewrite filter_cons_False, IH; auto.
Qed.

Lemma filter_nil_Forall (P : Z -> Prop) `{!forall x, Decision (P x)} l :
  filter P l = [] -> Forall (fun x => ~ P x) l.
Proof.
  intros Hnil. apply Forall_forall. intros x Hx HP.
  assert (x ∈ filter P l) as Hin by (apply list_elem_of_filter; auto).
  rewrite Hnil in Hin. by apply elem_of_nil in Hin.
Qed.

End Builtins.

Section Sorting.

Implicit Types (l k : list Z) (x m : Z).

Lemma Sorted_sorted l : Sorted Z.le (sorted l).
Proof. apply Sorted_merge_sort. apply _. Qed.

Lemma sorted_Permutation l : sorted l ≡ₚ l.
Proof. apply merge_sort_Permutation. Qed.

Lemma sorted_unique l k : Sorted Z.le k -> k ≡ₚ l -> sorted l = k.
Proof.
  intros Hk Hp. apply (Sorted_unique Z.le); [apply Sorted_sorted|exact Hk|].
  rewrite sorted_Permutation. symmetry. exact Hp.
Qed.

Lemma sorted_nil : sorted [] = [].
Proof. reflexivity. Qed.

Lemma Forall_sorted (P : Z -> Prop) l : Forall P l -> Forall P (sorted l).
Proof. intros H. rewrite sorted_Permutation. exact H. Qed.

Lemma length_sorted l : length (sorted l) = length l.
Proof. apply Permutation_length, sorted_Permutation. Qed.

(** The least element comes first. *)
Lemma sorted_cons_min l k m :
  l ≡ₚ m :: k -> Forall (fun y => m <= y) k -> sorted l = m :: sorted k.
Proof.
  intros Hp Hm. apply sorted_unique.
  - constructor; [apply Sorted_sorted|].
    apply Forall_sorted in Hm. destruct Hm; constructor; assumption.
  - rewrite sorted_Permutation. symmetry. exact Hp.
Qed.

(** The greatest element comes last. *)
Lemma sorted_snoc_max l k m :
  l ≡ₚ m :: k -> Forall (fun y => y <= m) k -> sorted l = sorted k ++ [m].
Proof.
  intros Hp Hm. apply sorted_unique.
  - apply Sorted_snoc; [apply Sorted_sorted|].
    apply Forall_sorted in Hm. revert Hm.
    induction (sorted k) as [|y t IH] using rev_ind; intros Hm.
    + constructor.
    + apply Forall_app in Hm as [_ Hy]. inversion Hy; subst.
      constructor. assumption.
  - rewrite sorted_Permutation, Hp. symmetry. apply Permutation_cons_append.
Qed.

Lemma StronglySorted_filter (P : Z -> Prop) `{!forall x, Decision (P x)} l :
  StronglySorted Z.le l -> StronglySorted Z.le (filter P l).
Proof.
  induction 1 as [|y l Hl IH Hy]; [constructor|].
  rewrite filter_cons. destruct (decide (P y)); [|exact IH].
  constructor; [exact IH|].
  apply Forall_forall. intros z [_ Hz]%list_elem_of_filter.
  rewrite Forall_forall in Hy. auto.
Qed.

(** Filtering the sorted queue is sorting the filtered queue. *)
Lemma filter_sorted (P : Z -> Prop) `{!forall x, Decision (P x)} l :
  filter P (sorted l) = sorted (filter P l).
Proof.
  symmetry. apply sorted_unique.
  - apply StronglySorted_Sorted, StronglySorted_filter.
    apply Sorted_StronglySorted; [apply _|apply Sorted_sorted].
  - rewrite sorted_Permutation. reflexivity.
Qed.

End Sorting.

Section Walks.

Implicit Types (l k : list Z) (h x : Z).

Lemma sum_app l k : sum (l ++ k) = sum l + sum k.
Proof. induction l as [|x l IH]; simpl; [reflexivity|]. rewrite IH. lia. Qed.

Lemma sum_singleton x : sum [x] = x.
Proof. unfold sum. simpl. lia. Qed.

Lemma arrive_nil h : arrive h [] = h.
Proof. reflexivity. Qed.

Lemma arrive_snoc h l x : arrive h (l ++ [x]) = x.
Proof. unfold arrive. rewrite last_snoc. reflexivity. Qed.

Lemma arrive_cons h x l : arrive h (x :: l) = arrive x l.
Proof. unfold arrive. rewrite last_cons. destruct (last l); reflexivity. Qed.


Lemma walk_app h l k : walk h (l ++ k) = walk h l ++ walk (arrive h l) k.
Proof.
  revert h. induction l as [|x l IH]; intros h; [reflexivity|].
  simpl. rewrite IH, arrive_cons. reflexivity.
Qed.

Lemma arrive_elem_of h l : l <> [] -> arrive h l ∈ l.
Proof.
  induction l as [|x l IH] using rev_ind; [done|]. intros _.
  rewrite arrive_snoc. apply elem_of_app. right. apply list_elem_of_here.
Qed.

Lemma walk_nonneg h l : Forall (fun m => 0 <= m) (walk h l).
Proof.
  revert h. induction l as [|x l IH]; intros h; constructor; [lia|apply IH].
Qed.

End Walks.

(* ===================================================================== *)
(** ** Facts about the loop and the visiting block                        *)
(* ===================================================================== *)

Section Loop.

Context {S : Type} (cond : S -> bool) (body : S -> S).

Lemma while_loop_exit fuel s : cond s = false -> while_loop cond body fuel s = Some s.
Proof. intros H. destruct fuel; simpl; rewrite H; reflexivity. Qed.

Lemma while_loop_step fuel s :
  cond s = true ->
  while_loop cond body (Datatypes.S fuel) s = while_loop cond body fuel (body s).
Proof. intros H. simpl. rewrite H. reflexivity. Qed.

(** A larger budget does not change a result. *)
Lemma while_loop_mono fuel fuel' s r :
  while_loop cond body fuel s = Some r -> (fuel <= fuel')%nat ->
  while_loop cond body fuel' s = Some r.
Proof.
  revert fuel' s. induction fuel as [|n IH]; intros fuel' s Hr Hle.
  - simpl in Hr. destruct (cond s) eqn:Hc; [discriminate|].
    rewrite while_loop_exit; assumption.
  - destruct fuel' as [|m]; [lia|]. simpl in *.
    destruct (cond s); [|assumption]. apply IH; [assumption|lia].
Qed.

(** Loop invariants: what the body preserves holds on exit, where the
    loop condition is false. *)
Lemma while_loop_invariant (I : S -> Prop) fuel s r :
  (forall s, I s -> cond s = true -> I (body s)) ->
  I s -> while_loop cond body fuel s = Some r -> I r /\ cond r = false.
Proof.
  intros Hbody. revert s. induction fuel as [|n IH]; intros s Hs Hr; simpl in Hr.
  - destruct (cond s) eqn:Hc; [discriminate|]. injection Hr as <-. auto.
  - destruct (cond s) eqn:Hc; [|injection Hr as <-; auto].
    apply (IH (body s)); auto.
Qed.

End Loop.

(** Reduces the projections of a state built by the visiting block and
    the field updates, and nothing else. *)
Ltac state_fields :=
  cbn [st_current_head st_requests st_total_movement st_sequence st_movements
       st_current_direction visit set_direction set_requests set_head add_total
       initial].

Section Visits.

Implicit Types (s : State) (l : list Z) (x : Z).

Lemma visit_all_nil s : visit_all [] s = s.
Proof. reflexivity. Qed.

Lemma visit_all_cons x l s : visit_all (x :: l) s = visit_all l (visit x s).
Proof. reflexivity. Qed.


(** The state after visiting [l] in order, field by field. *)
Lemma visit_all_eq l s :
  visit_all l s =
  mkState (arrive (st_current_head s) l) (st_requests s)
          (st_total_movement s + sum (walk (st_current_head s) l))
          (st_sequence s ++ l)
          (st_movements s ++ walk (st_current_head s) l)
          (st_current_direction s).
Proof.
  revert s. induction l as [|x l IH]; intros s.
  - destruct s. simpl. rewrite arrive_nil, Z.add_0_r, !app_nil_r. reflexivity.
  - rewrite visit_all_cons, IH. simpl.
    rewrite arrive_cons, <- !app_assoc. simpl. f_equal. lia.
Qed.

Lemma pending_false s : pending s = false <-> st_requests s = [].
Proof. unfold pending. destruct (st_requests s); split; done. Qed.

Lemma pending_true s : pending s = true <-> st_requests s <> [].
Proof. unfold pending. destruct (st_requests s); split; done. Qed.

End Visits.

(* ===================================================================== *)
(** ** One sweep of the elevator                                          *)
(* ===================================================================== *)

Lemma elem_of_remove_first (x y : Z) (l : list Z) :
  y ∈ remove_first x l -> y ∈ l.
Proof.
  induction l as [|z l IH]; simpl; [done|].
  destruct (Z.eqb_spec z x); intros Hy.
  - apply list_elem_of_further, Hy.
  - apply elem_of_cons in Hy as [->|Hy];
      [apply list_elem_of_here|apply list_elem_of_further, IH, Hy].
Qed.

Lemma set_requests_visit_all (l k k' : list Z) (s : State) :
  set_requests k (visit_all l (set_requests k' s)) = set_requests k (visit_all l s).
Proof. rewrite !visit_all_eq. reflexivity. Qed.

Lemma set_requests_same (s : State) : set_requests (st_requests s) s = s.
Proof. destruct s. reflexivity. Qed.

(** SCAN and C-SCAN share the servicing branches of their loop bodies; the
    two sweeps are proved once for any body that has them. *)
Section Sweeps.

Variable body : State -> State.

Hypothesis body_up : forall s next,
  String.eqb (st_current_direction s) "right" = true ->
  py_min (filter (fun r => st_current_head s <= r) (st_requests s)) = Some next ->
  body s = serve next s.

Hypothesis body_down : forall s next,
  String.eqb (st_current_direction s) "right" = false ->
  py_max (filter (fun r => r <= st_current_head s) (st_requests s)) = Some next ->
  body s = serve next s.

(** Sweeping toward high cylinders services, in ascending order, every
    request at or above the head, one per iteration, and leaves the
    requests below the head in the queue. *)
Lemma sweep_up (n : nat) : forall (s : State) (fuel : nat),
  String.eqb (st_current_direction s) "right" = true ->
  length (filter (fun r => st_current_head s <= r) (st_requests s)) = n ->
  while_loop pending body (n + fuel) s =
  while_loop pending body fuel
    (set_requests (filter (fun r => r < st_current_head s) (st_requests s))
       (visit_all (sorted (filter (fun r => st_current_head s <= r) (st_requests s))) s)).
Proof.
  induction n as [|n IH]; intros s fuel Hdir Hlen.
  - apply nil_length_inv in Hlen. rewrite Hlen, sorted_nil, visit_all_nil.
    rewrite (filter_all (fun r => r < st_current_head s)).
    + rewrite set_requests_same. reflexivity.
    + apply filter_nil_Forall in Hlen.
      eapply Forall_impl; [exact Hlen|]. simpl. intros; lia.
  - set (h := st_current_head s) in *. set (q := st_requests s) in *.
    destruct (min_by_is_Some (fun x => x) (filter (fun r => h <= r) q))
      as [m Hm]; [intros E; rewrite E in Hlen; discriminate|].
    pose proof (min_by_elem_of _ _ _ Hm) as [Hhm Hmq]%list_elem_of_filter.
    assert (pending s = true) as Hpend.
    { apply pending_true. fold q. intros E. rewrite E in Hmq.
      by apply elem_of_nil in Hmq. }
    change (Datatypes.S n + fuel)%nat with (Datatypes.S (n + fuel)).
    rewrite (while_loop_step _ _ _ _ Hpend), (body_up s m Hdir Hm).
    assert (filter (fun r => m <= r) (remove_first m q)
            = filter (fun r => h <= r) (remove_first m q)) as Hsame.
    { apply filter_ext_in. intros x Hx%elem_of_remove_first. split; [lia|].
      intros Hhx. apply (min_by_least (fun x => x) _ m x Hm).
      apply list_elem_of_filter. auto. }
    pose proof (filter_remove_first_True (fun r => h <= r) q m Hhm Hmq) as Hperm.
    rewrite IH; [|exact Hdir|].
    + change (st_current_head (serve m s)) with m.
      change (st_requests (serve m s)) with (remove_first m q).
      rewrite Hsame.
      rewrite (sorted_cons_min _ _ _ Hperm).
      * rewrite visit_all_cons. unfold serve.
        rewrite set_requests_visit_all.
        rewrite (filter_remove_first_False (fun r => r < m)) by lia.
        rewrite (filter_ext_in (fun r => r < m) (fun r => r < h) q); [reflexivity|].
        intros x Hx. split; [|lia]. intros Hxm.
        destruct (decide (h <= x)) as [Hhx|]; [|lia].
        assert (m <= x); [|lia].
        apply (min_by_least (fun x => x) _ m x Hm), list_elem_of_filter; auto.
      * rewrite <- Hsame. apply Forall_forall.
        intros x [Hx _]%list_elem_of_filter. exact Hx.
    + change (st_current_head (serve m s)) with m.
      change (st_requests (serve m s)) with (remove_first m q).
      rewrite Hsame. apply Permutation_length in Hperm.
      simpl in Hperm. lia.
Qed.

(** Sweeping toward low cylinders services, in descending order, every
    request at or below the head and leaves the requests above it. *)
Lemma sweep_down (n : nat) : forall (s : State) (fuel : nat),
  String.eqb (st_current_direction s) "right" = false ->
  length (filter (fun r => r <= st_current_head s) (st_requests s)) = n ->
  while_loop pending body (n + fuel) s =
  while_loop pending body fuel
    (set_requests (filter (fun r => st_current_head s < r) (st_requests s))
       (visit_all
          (reverse (sorted (filter (fun r => r <= st_current_head s) (st_requests s))))
          s)).
Proof.
  induction n as [|n IH]; intros s fuel Hdir Hlen.
  - apply nil_length_inv in Hlen. rewrite Hlen, sorted_nil, visit_all_nil.
    rewrite (filter_all (fun r => st_current_head s < r)).
    + rewrite set_requests_same. reflexivity.
    + apply filter_nil_Forall in Hlen.
      eapply Forall_impl; [exact Hlen|]. simpl. intros; lia.
  - set (h := st_current_head s) in *. set (q := st_requests s) in *.
    destruct (py_max (filter (fun r => r <= h) q)) as [m|] eqn:Hm;
      [|apply py_max_None in Hm; rewrite Hm in Hlen; discriminate].
    pose proof (py_max_elem_of _ _ Hm) as [Hhm Hmq]%list_elem_of_filter.
    assert (pending s = true) as Hpend.
    { apply pending_true. fold q. intros E. rewrite E in Hmq.
      by apply elem_of_nil in Hmq. }
    change (Datatypes.S n + fuel)%nat with (Datatypes.S (n + fuel)).
    rewrite (while_loop_step _ _ _ _ Hpend), (body_down s m Hdir Hm).
    assert (filter (fun r => r <= m) (remove_first m q)
            = filter (fun r => r <= h) (remove_first m q)) as Hsame.
    { apply filter_ext_in. intros x Hx%elem_of_remove_first. split; [lia|].
      intros Hhx. apply (py_max_greatest _ m x Hm).
      apply list_elem_of_filter. auto. }
    pose proof (filter_remove_first_True (fun r => r <= h) q m Hhm Hmq) as Hperm.
    rewrite IH; [|exact Hdir|].
    + change (st_current_head (serve m s)) with m.
      change (st_requests (serve m s)) with (remove_first m q).
      rewrite Hsame.
      rewrite (sorted_snoc_max _ _ _ Hperm).
      * rewrite reverse_snoc, visit_all_cons. unfold serve.
        rewrite set_requests_visit_all.
        rewrite (filter_remove_first_False (fun r => m < r)) by lia.
        rewrite (filter_ext_in (fun r => m < r) (fun r => h < r) q); [reflexivity|].
        intros x Hx. split; [|lia]. intros Hxm.
        destruct (decide (x <= h)) as [Hhx|]; [|lia].
        assert (x <= m); [|lia].
        apply (py_max_greatest _ m x Hm), list_elem_of_filter; auto.
      * rewrite <- Hsame. apply Forall_forall.
        intros x [Hx _]%list_elem_of_filter. exact Hx.
    + change (st_current_head (serve m s)) with m.
      change (st_requests (serve m s)) with (remove_first m q).
      rewrite Hsame. apply Permutation_length in Hperm.
      simpl in Hperm. lia.
Qed.

End Sweeps.

(* ===================================================================== *)
(** ** Complete runs of SCAN and C-SCAN on a valid disk                   *)
(* ===================================================================== *)

Lemma length_filter_split (P Q : Z -> Prop)
    `{!forall x, Decision (P x), !forall x, Decision (Q x)} (l : list Z) :
  (forall x, P x <-> ~ Q x) ->
  (length (filter P l) + length (filter Q l))%nat = length l.
Proof.
  intros HPQ. induction l as [|y l IH]; [reflexivity|].
  rewrite !filter_cons. pose proof (HPQ y).
  destruct (decide (P y)), (decide (Q y)); simpl; first [lia | tauto].
Qed.

Lemma filter_split_Permutation (P Q : Z -> Prop)
    `{!forall x, Decision (P x), !forall x, Decision (Q x)} (l : list Z) :
  (forall x, P x <-> ~ Q x) -> filter P l ++ filter Q l ≡ₚ l.
Proof.
  intros HPQ. induction l as [|y l IH]; [reflexivity|].
  rewrite !filter_cons. pose proof (HPQ y).
  destruct (decide (P y)), (decide (Q y)); simpl; try tauto.
  - rewrite IH. reflexivity.
  - rewrite <- Permutation_middle, IH. reflexivity.
Qed.

(** A sweep that finds the whole queue on its side empties it. *)
Section FullSweeps.

Variable body : State -> State.

Hypothesis body_up : forall s next,
  String.eqb (st_current_direction s) "right" = true ->
  py_min (filter (fun r => st_current_head s <= r) (st_requests s)) = Some next ->
  body s = serve next s.

Hypothesis body_down : forall s next,
  String.eqb (st_current_direction s) "right" = false ->
  py_max (filter (fun r => r <= st_current_head s) (st_requests s)) = Some next ->
  body s = serve next s.

Lemma sweep_up_all (s : State) (fuel : nat) :
  String.eqb (st_current_direction s) "right" = true ->
  Forall (fun r => st_current_head s <= r) (st_requests s) ->
  (length (st_requests s) <= fuel)%nat ->
  while_loop pending body fuel s
  = Some (set_requests [] (visit_all (sorted (st_requests s)) s)).
Proof.
  intros Hdir Hall Hfuel.
  replace fuel with (length (st_requests s) + (fuel - length (st_requests s)))%nat
    by lia.
  rewrite (sweep_up body body_up (length (st_requests s))); [|exact Hdir|].
  - rewrite (filter_all _ _ Hall), (filter_none (fun r => r < st_current_head s)).
    + apply while_loop_exit. reflexivity.
    + eapply Forall_impl; [exact Hall|]. simpl. intros; lia.
  - rewrite (filter_all _ _ Hall). reflexivity.
Qed.

Lemma sweep_down_all (s : State) (fuel : nat) :
  String.eqb (st_current_direction s) "right" = false ->
  Forall (fun r => r <= st_current_head s) (st_requests s) ->
  (length (st_requests s) <= fuel)%nat ->
  while_loop pending body fuel s
  = Some (set_requests [] (visit_all (reverse (sorted (st_requests s))) s)).
Proof.
  intros Hdir Hall Hfuel.
  replace fuel with (length (st_requests s) + (fuel - length (st_requests s)))%nat
    by lia.
  rewrite (sweep_down body body_down (length (st_requests s))); [|exact Hdir|].
  - rewrite (filter_all _ _ Hall), (filter_none (fun r => st_current_head s < r)).
    + apply while_loop_exit. reflexivity.
    + eapply Forall_impl; [exact Hall|]. simpl. intros; lia.
  - rewrite (filter_all _ _ Hall). reflexivity.
Qed.

End FullSweeps.

Lemma scan_body_up total s next :
  String.eqb (st_current_direction s) "right" = true ->
  py_min (filter (fun r => st_current_head s <= r) (st_requests s)) = Some next ->
  scan_body total s = serve next s.
Proof. intros H1 H2. unfold scan_body. rewrite H1, H2. reflexivity. Qed.

Lemma scan_body_down total s next :
  String.eqb (st_current_direction s) "right" = false ->
  py_max (filter (fun r => r <= st_current_head s) (st_requests s)) = Some next ->
  scan_body total s = serve next s.
Proof. intros H1 H2. unfold scan_body. rewrite H1, H2. reflexivity. Qed.

Lemma c_scan_body_up total s next :
  String.eqb (st_current_direction s) "right" = true ->
  py_min (filter (fun r => st_current_head s <= r) (st_requests s)) = Some next ->
  c_scan_body total s = serve next s.
Proof. intros H1 H2. unfold c_scan_body. rewrite H1, H2. reflexivity. Qed.

Lemma c_scan_body_down total s next :
  String.eqb (st_current_direction s) "right" = false ->
  py_max (filter (fun r => r <= st_current_head s) (st_requests s)) = Some next ->
  c_scan_body total s = serve next s.
Proof. intros H1 H2. unfold c_scan_body. rewrite H1, H2. reflexivity. Qed.

(** At the end of a sweep, with requests left: SCAN turns round at the
    boundary, C-SCAN visits it and jumps to the other one. *)
Lemma scan_body_turn_left total s :
  String.eqb (st_current_direction s) "right" = true ->
  filter (fun r => st_current_head s <= r) (st_requests s) = [] ->
  scan_body total s = set_direction "left" (visit (total - 1) s).
Proof. intros H1 H2. unfold scan_body. rewrite H1, H2. reflexivity. Qed.

Lemma scan_body_turn_right total s :
  String.eqb (st_current_direction s) "right" = false ->
  filter (fun r => r <= st_current_head s) (st_requests s) = [] ->
  scan_body total s = set_direction "right" (visit 0 s).
Proof. intros H1 H2. unfold scan_body. rewrite H1, H2. reflexivity. Qed.

Lemma c_scan_body_wrap_right total s :
  String.eqb (st_current_direction s) "right" = true ->
  filter (fun r => st_current_head s <= r) (st_requests s) = [] ->
  c_scan_body total s = set_head 0 (add_total (total - 1) (visit (total - 1) s)).
Proof. intros H1 H2. unfold c_scan_body. rewrite H1, H2. reflexivity. Qed.

Lemma c_scan_body_wrap_left total s :
  String.eqb (st_current_direction s) "right" = false ->
  filter (fun r => r <= st_current_head s) (st_requests s) = [] ->
  c_scan_body total s
  = set_head (total - 1) (add_total (total - 1) (visit 0 s)).
Proof. intros H1 H2. unfold c_scan_body. rewrite H1, H2. reflexivity. Qed.

Lemma arrive_lower_bound (h : Z) (l : list Z) :
  Forall (fun r => h <= r) l -> h <= arrive h l.
Proof.
  intros Hl. destruct l as [|x l]; [rewrite arrive_nil; lia|].
  rewrite Forall_forall in Hl. apply Hl, arrive_elem_of. done.
Qed.

Lemma arrive_upper_bound (h : Z) (l : list Z) :
  Forall (fun r => r <= h) l -> arrive h l <= h.
Proof.
  intros Hl. destruct l as [|x l]; [rewrite arrive_nil; lia|].
  rewrite Forall_forall in Hl. apply Hl, arrive_elem_of. done.
Qed.

Section ValidRuns.

Variable d : Disk.
Hypothesis Hvalid : valid d.

Let T := total_cylinders d.
Let h := current_head d.
Let q := request_queue d.

Lemma valid_request (r : Z) : r ∈ q -> 0 <= r <= T - 1.
Proof.
  intros Hr. pose proof (valid_requests d Hvalid) as Hq.
  rewrite Forall_forall in Hq. apply Hq, Hr.
Qed.

(** The first sweep, in either direction, ends in the same shape. *)
Lemma first_sweep body dir fuel :
  (forall s next,
     String.eqb (st_current_direction s) "right" = true ->
     py_min (filter (fun r => st_current_head s <= r) (st_requests s)) = Some next ->
     body s = serve next s) ->
  (forall s next,
     String.eqb (st_current_direction s) "right" = false ->
     py_max (filter (fun r => r <= st_current_head s) (st_requests s)) = Some next ->
     body s = serve next s) ->
  while_loop pending body (length (ahead d dir) + fuel) (initial d dir)
  = while_loop pending body fuel
      (set_requests (behind d dir) (visit_all (outward_leg d dir) (initial d dir))).
Proof.
  intros Hup Hdown. unfold ahead, behind, outward_leg, ahead.
  destruct (String.eqb dir "right") eqn:Hdir.
  - apply (sweep_up body Hup _ (initial d dir) fuel Hdir eq_refl).
  - apply (sweep_down body Hdown _ (initial d dir) fuel Hdir eq_refl).
Qed.

Lemma length_ahead_behind dir :
  (length (ahead d dir) + length (behind d dir))%nat = length q.
Proof.
  unfold ahead, behind. destruct (String.eqb dir "right");
    apply length_filter_split; intros; lia.
Qed.


Lemma behind_in_range dir : Forall (in_range T) (behind d dir).
Proof.
  apply Forall_forall. intros r Hr. apply valid_request.
  unfold behind in Hr.
  destruct (String.eqb dir "right"); apply list_elem_of_filter in Hr; tauto.
Qed.

Lemma outward_leg_right dir :
  String.eqb dir "right" = true -> Forall (fun r => h <= r) (outward_leg d dir).
Proof.
  intros Hdir. unfold outward_leg, ahead. rewrite Hdir.
  apply Forall_sorted, Forall_forall. intros r [Hr _]%list_elem_of_filter. exact Hr.
Qed.

Lemma outward_leg_left dir :
  String.eqb dir "right" = false -> Forall (fun r => r <= h) (outward_leg d dir).
Proof.
  intros Hdir. unfold outward_leg, ahead. rewrite Hdir.
  apply Forall_forall. intros r Hr. rewrite elem_of_reverse in Hr. revert r Hr.
  apply Forall_forall, Forall_sorted, Forall_forall.
  intros r [Hr _]%list_elem_of_filter. exact Hr.
Qed.

(** SCAN on a valid disk leaves its loop within [len(requests) + 1]
    iterations, in the state [scan_end]. *)
Lemma scan_run dir fuel :
  (length q + 1 <= fuel)%nat ->
  while_loop pending (scan_body T) fuel (initial d dir) = Some (scan_end d dir).
Proof.
  intros Hfuel. pose proof (length_ahead_behind dir) as Hlen.
  replace fuel with (length (ahead d dir) + (fuel - length (ahead d dir)))%nat by lia.
  rewrite (first_sweep _ dir _ (scan_body_up T) (scan_body_down T)).
  unfold scan_end, wraps.
  pose proof (behind_in_range dir) as Hrange.
  destruct (behind d dir) as [|r0 rest] eqn:Hbehind.
  { apply while_loop_exit. reflexivity. }
  destruct (fuel - length (ahead d dir))%nat as [|k] eqn:Hk; [simpl in Hlen; lia|].
  rewrite while_loop_step by reflexivity.
  assert (length (r0 :: rest) <= k)%nat as Hk' by lia.
  assert (Forall (fun r => 0 <= r <= T - 1) (r0 :: rest)) as Hr by exact Hrange.
  set (s1 := set_requests (r0 :: rest) (visit_all (outward_leg d dir) (initial d dir))).
  assert (st_current_head s1 = arrive h (outward_leg d dir)) as Hhead
    by (unfold s1; rewrite visit_all_eq; reflexivity).
  assert (st_current_direction s1 = dir) as Hsdir
    by (unfold s1; rewrite visit_all_eq; reflexivity).
  unfold boundary, scan_return_leg. rewrite Hbehind.
  destruct (String.eqb dir "right") eqn:Hdir.
  - rewrite (scan_body_turn_left T s1).
    + rewrite (sweep_down_all _ (scan_body_down T)); [| reflexivity | | exact Hk'].
      * f_equal. unfold s1. rewrite !visit_all_eq. reflexivity.
      * eapply Forall_impl; [exact Hr|]. simpl. intros; lia.
    + rewrite Hsdir. exact Hdir.
    + apply filter_none. rewrite Hhead.
      pose proof (arrive_lower_bound h _ (outward_leg_right dir Hdir)).
      change (st_requests s1) with (r0 :: rest).
      rewrite <- Hbehind. unfold behind. rewrite Hdir.
      apply Forall_forall. intros r [Hr' _]%list_elem_of_filter. lia.
  - rewrite (scan_body_turn_right T s1).
    + rewrite (sweep_up_all _ (scan_body_up T)); [| reflexivity | | exact Hk'].
      * f_equal. unfold s1. rewrite !visit_all_eq. reflexivity.
      * eapply Forall_impl; [exact Hr|]. simpl. intros; lia.
    + rewrite Hsdir. exact Hdir.
    + apply filter_none. rewrite Hhead.
      pose proof (arrive_upper_bound h _ (outward_leg_left dir Hdir)).
      change (st_requests s1) with (r0 :: rest).
      rewrite <- Hbehind. unfold behind. rewrite Hdir.
      apply Forall_forall. intros r [Hr' _]%list_elem_of_filter. lia.
Qed.

(** C-SCAN on a valid disk leaves its loop within [len(requests) + 1]
    iterations, in the state [c_scan_end]. *)
Lemma c_scan_run dir fuel :
  (length q + 1 <= fuel)%nat ->
  while_loop pending (c_scan_body T) fuel (initial d dir) = Some (c_scan_end d dir).
Proof.
  intros Hfuel. pose proof (length_ahead_behind dir) as Hlen.
  replace fuel with (length (ahead d dir) + (fuel - length (ahead d dir)))%nat by lia.
  rewrite (first_sweep _ dir _ (c_scan_body_up T) (c_scan_body_down T)).
  unfold c_scan_end, wraps.
  pose proof (behind_in_range dir) as Hrange.
  destruct (behind d dir) as [|r0 rest] eqn:Hbehind.
  { apply while_loop_exit. reflexivity. }
  destruct (fuel - length (ahead d dir))%nat as [|k] eqn:Hk; [simpl in Hlen; lia|].
  rewrite while_loop_step by reflexivity.
  assert (length (r0 :: rest) <= k)%nat as Hk' by lia.
  assert (Forall (fun r => 0 <= r <= T - 1) (r0 :: rest)) as Hr by exact Hrange.
  set (s1 := set_requests (r0 :: rest) (visit_all (outward_leg d dir) (initial d dir))).
  assert (st_current_head s1 = arrive h (outward_leg d dir)) as Hhead
    by (unfold s1; rewrite visit_all_eq; reflexivity).
  assert (st_current_direction s1 = dir) as Hsdir
    by (unfold s1; rewrite visit_all_eq; reflexivity).
  unfold boundary, c_scan_second_leg. rewrite Hbehind.
  destruct (String.eqb dir "right") eqn:Hdir.
  - rewrite (c_scan_body_wrap_right T s1).
    + rewrite (sweep_up_all _ (c_scan_body_up T)); [| | | exact Hk'].
      * f_equal. unfold s1. rewrite !visit_all_eq. reflexivity.
      * unfold s1. rewrite visit_all_eq. exact Hdir.
      * eapply Forall_impl; [exact Hr|]. simpl. intros; lia.
    + rewrite Hsdir. exact Hdir.
    + apply filter_none. rewrite Hhead.
      pose proof (arrive_lower_bound h _ (outward_leg_right dir Hdir)).
      change (st_requests s1) with (r0 :: rest).
      rewrite <- Hbehind. unfold behind. rewrite Hdir.
      apply Forall_forall. intros r [Hr' _]%list_elem_of_filter. lia.
  - rewrite (c_scan_body_wrap_left T s1).
    + rewrite (sweep_down_all _ (c_scan_body_down T)); [| | | exact Hk'].
      * f_equal. unfold s1. rewrite !visit_all_eq. reflexivity.
      * unfold s1. rewrite visit_all_eq. exact Hdir.
      * eapply Forall_impl; [exact Hr|]. simpl. intros; lia.
    + rewrite Hsdir. exact Hdir.
    + apply filter_none. rewrite Hhead.
      pose proof (arrive_upper_bound h _ (outward_leg_left dir Hdir)).
      change (st_requests s1) with (r0 :: rest).
      rewrite <- Hbehind. unfold behind. rewrite Hdir.
      apply Forall_forall. intros r [Hr' _]%list_elem_of_filter. lia.
Qed.

End ValidRuns.

(* ===================================================================== *)
(** ** Results of the schedulers                                          *)
(* ===================================================================== *)


(** Reading a result off the state in which the loop ended. *)
Lemma conclude_Returns name dir q s r :
  conclude name dir q s = Returns r ->
  algorithm r = name
  /\ total_movement r = st_total_movement s
  /\ sequence r = st_sequence s
  /\ movements r = st_movements s
  /\ final_position r = st_current_head s
  /\ direction r = dir.
Proof.
  unfold conclude. destruct (average _ _); [|discriminate].
  intros [= <-]. repeat split.
Qed.

Lemma conclude_not_Running name dir q s : conclude name dir q s <> Running.
Proof. unfold conclude. destruct (average _ _); discriminate. Qed.


Lemma sstf_schedule_Returns fuel d r :
  sstf_schedule fuel d = Returns r ->
  exists s, while_loop pending sstf_body fuel (initial d "") = Some s
            /\ conclude "SSTF" None (request_queue d) s = Returns r.
Proof.
  unfold sstf_schedule. destruct (while_loop _ _ _ _) as [s|]; [eauto|discriminate].
Qed.

Lemma scan_schedule_Returns fuel d dir r :
  scan_schedule fuel d dir = Returns r ->
  exists s, while_loop pending (scan_body (total_cylinders d)) fuel (initial d dir)
            = Some s
            /\ conclude "SCAN" (Some dir) (request_queue d) s = Returns r.
Proof.
  unfold scan_schedule. destruct (while_loop _ _ _ _) as [s|]; [eauto|discriminate].
Qed.

Lemma c_scan_schedule_Returns fuel d dir r :
  c_scan_schedule fuel d dir = Returns r ->
  exists s, while_loop pending (c_scan_body (total_cylinders d)) fuel (initial d dir)
            = Some s
            /\ conclude "C-SCAN" (Some dir) (request_queue d) s = Returns r.
Proof.
  unfold c_scan_schedule. destruct (while_loop _ _ _ _) as [s|]; [eauto|discriminate].
Qed.

Lemma sstf_schedule_ends fuel d s :
  while_loop pending sstf_body fuel (initial d "") = Some s ->
  sstf_schedule fuel d = conclude "SSTF" None (request_queue d) s.
Proof. unfold sstf_schedule. intros ->. reflexivity. Qed.

Lemma scan_schedule_ends fuel d dir s :
  while_loop pending (scan_body (total_cylinders d)) fuel (initial d dir) = Some s ->
  scan_schedule fuel d dir = conclude "SCAN" (Some dir) (request_queue d) s.
Proof. unfold scan_schedule. intros ->. reflexivity. Qed.

Lemma c_scan_schedule_ends fuel d dir s :
  while_loop pending (c_scan_body (total_cylinders d)) fuel (initial d dir) = Some s ->
  c_scan_schedule fuel d dir = conclude "C-SCAN" (Some dir) (request_queue d) s.
Proof. unfold c_scan_schedule. intros ->. reflexivity. Qed.

Lemma scan_schedule_mono fuel fuel' d dir r :
  scan_schedule fuel d dir = Returns r -> (fuel <= fuel')%nat ->
  scan_schedule fuel' d dir = Returns r.
Proof.
  unfold scan_schedule. intros Hr Hle.
  destruct (while_loop _ _ fuel _) as [s|] eqn:Hs; [|discriminate].
  rewrite (while_loop_mono _ _ _ _ _ _ Hs Hle). exact Hr.
Qed.

Lemma c_scan_schedule_mono fuel fuel' d dir r :
  c_scan_schedule fuel d dir = Returns r -> (fuel <= fuel')%nat ->
  c_scan_schedule fuel' d dir = Returns r.
Proof.
  unfold c_scan_schedule. intros Hr Hle.
  destruct (while_loop _ _ fuel _) as [s|] eqn:Hs; [|discriminate].
  rewrite (while_loop_mono _ _ _ _ _ _ Hs Hle). exact Hr.
Qed.


(** C8.  On an empty request list each of the four operations returns at
    once, whatever the geometry, head, direction token and budget: empty
    sequence and movements, total movement 0, average seek 0 (the guarded
    division is not evaluated) and the head where it started. *)
Theorem empty_queue_result (total head : Z) (dir : string) (fuel : nat) :
  let d := mkDisk total head [] in
  fcfs_schedule d = Returns (mkResult "FCFS" 0 0%Q [] [] head None)
  /\ sstf_schedule fuel d = Returns (mkResult "SSTF" 0 0%Q [] [] head None)
  /\ scan_schedule fuel d dir = Returns (mkResult "SCAN" 0 0%Q [] [] head (Some dir))
  /\ c_scan_schedule fuel d dir
     = Returns (mkResult "C-SCAN" 0 0%Q [] [] head (Some dir)).
Proof.
  repeat split; destruct fuel; reflexivity.
Qed.

(** C4.  SCAN on 200 cylinders from head 50 toward high cylinders, requests
    82,170,43,140,24,16,190: visits 82,140,170,190, then the boundary 199 as
    an emitted step, then 43,24,16, and ends on 16. *)
Theorem scan_worked_example (fuel : nat) :
  (8 <= fuel)%nat ->
  exists r, scan_schedule fuel example_disk "right" = Returns r
    /\ sequence r = [82; 140; 170; 190] ++ [199] ++ [43; 24; 16]
    /\ movements r = [32; 58; 30; 20; 9; 156; 19; 8]
    /\ total_movement r = 332
    /\ final_position r = 16.
Proof.
  intros Hfuel.
  destruct (scan_schedule 8 example_disk "right") as [r| |] eqn:Hr;
    [|vm_compute in Hr; discriminate..].
  exists r. split; [apply (scan_schedule_mono 8); assumption|].
  vm_compute in Hr. injection Hr as <-. repeat split.
Qed.

Lemma scan_worked_example_witness :
  (8 <= 8)%nat /\
  exists r, scan_schedule 8 example_disk "right" = Returns r
    /\ sequence r = [82; 140; 170; 190] ++ [199] ++ [43; 24; 16]
    /\ movements r = [32; 58; 30; 20; 9; 156; 19; 8]
    /\ total_movement r = 332
    /\ final_position r = 16.
Proof. split; [lia|]. apply (scan_worked_example 8). lia. Defined.

(** C3.  C-SCAN on the same input: visits 82,140,170,190, then the boundary
    199, then jumps to 0, the jump's 199 cylinders going into the total
    movement (391 = 192 recorded + 199), then visits 16,24,43 measured from
    0, and ends on 43. *)
Theorem c_scan_worked_example (fuel : nat) :
  (8 <= fuel)%nat ->
  exists r, c_scan_schedule fuel example_disk "right" = Returns r
    /\ sequence r = [82; 140; 170; 190] ++ [199] ++ [16; 24; 43]
    /\ movements r = walk 50 [82; 140; 170; 190; 199] ++ walk 0 [16; 24; 43]
    /\ total_movement r = sum (movements r) + 199
    /\ total_movement r = 391
    /\ final_position r = 43.
Proof.
  intros Hfuel.
  destruct (c_scan_schedule 8 example_disk "right") as [r| |] eqn:Hr;
    [|vm_compute in Hr; discriminate..].
  exists r. split; [apply (c_scan_schedule_mono 8); assumption|].
  vm_compute in Hr. injection Hr as <-. repeat split.
Qed.

Lemma c_scan_worked_example_witness :
  (8 <= 8)%nat /\
  exists r, c_scan_schedule 8 example_disk "right" = Returns r
    /\ sequence r = [82; 140; 170; 190] ++ [199] ++ [16; 24; 43]
    /\ movements r = walk 50 [82; 140; 170; 190; 199] ++ walk 0 [16; 24; 43]
    /\ total_movement r = sum (movements r) + 199
    /\ total_movement r = 391
    /\ final_position r = 43.
Proof. split; [lia|]. apply (c_scan_worked_example 8). lia. Defined.

(** C10.  The C-SCAN of the workload demo has no branch for a direction
    token other than ['right']: it returns total movement 0 and an empty
    sequence, whatever the requests. *)
Theorem workload_c_scan_other_direction (d : Disk) (dir : string) :
  request_queue d <> [] -> dir <> "right" ->
  Workload.c_scan_schedule d dir = (0, []).
Proof.
  intros _ Hdir. unfold Workload.c_scan_schedule.
  destruct (String.eqb_spec dir "right") as [E|_]; [contradiction|reflexivity].
Qed.

Lemma workload_c_scan_other_direction_witness :
  let d := mkDisk 200 50 [51; 49; 52; 48; 50; 195; 5] in
  request_queue d <> [] /\ "left" <> "right"
  /\ Workload.c_scan_schedule d "left" = (0, []).
Proof.
  split; [discriminate|]. split; [discriminate|].
  apply workload_c_scan_other_direction; discriminate.
Defined.

(* ===================================================================== *)
(** ** SSTF                                                               *)
(* ===================================================================== *)

Lemma sstf_body_split (s : State) (x : Z) (l : list Z) :
  st_requests s = x :: l ->
  exists c before after,
    st_requests s = before ++ c :: after
    /\ Forall (fun y => Z.abs (c - st_current_head s) < Z.abs (y - st_current_head s)) before
    /\ Forall (fun y => Z.abs (c - st_current_head s) <= Z.abs (y - st_current_head s)) after
    /\ sstf_body s = set_requests (before ++ after) (visit c s).
Proof.
  intros Hq. unfold sstf_body.
  destruct (min_by_is_Some (fun y => Z.abs (y - st_current_head s)) (st_requests s))
    as [c Hc]; [rewrite Hq; discriminate|].
  rewrite Hc. apply min_by_split in Hc as (before & after & Heq & Hb & Ha).
  exists c, before, after. repeat split; try assumption.
  unfold serve. rewrite Heq, remove_first_split; [reflexivity|].
  intros Hin. rewrite Forall_forall in Hb. apply Hb in Hin. lia.
Qed.

(** The SSTF loop empties any queue within [len(requests)] iterations, and
    what it appends to the sequence is an [sstf_order] of that queue. *)
Lemma sstf_loop_order (fuel : nat) : forall s : State,
  (length (st_requests s) <= fuel)%nat ->
  exists s' tail,
    while_loop pending sstf_body fuel s = Some s'
    /\ st_sequence s' = st_sequence s ++ tail
    /\ sstf_order (st_current_head s) (st_requests s) tail.
Proof.
  induction fuel as [|n IH]; intros s Hlen.
  - destruct (st_requests s) as [|x l] eqn:Hq; [|simpl in Hlen; lia].
    exists s, []. rewrite while_loop_exit by (apply pending_false; exact Hq).
    rewrite app_nil_r. repeat split. constructor.
  - destruct (st_requests s) as [|x l] eqn:Hq.
    + exists s, []. rewrite while_loop_exit by (apply pending_false; exact Hq).
      rewrite app_nil_r. repeat split. constructor.
    + destruct (sstf_body_split s x l Hq) as (c & before & after & Heq & Hb & Ha & Hbody).
      rewrite while_loop_step by (apply pending_true; rewrite Hq; discriminate).
      rewrite Hbody.
      destruct (IH (set_requests (before ++ after) (visit c s)))
        as (s' & tail & Hrun & Hseq & Hord).
      { cbn. assert (x :: l = before ++ c :: after) as E by congruence.
        rewrite E, length_app in Hlen. rewrite length_app. simpl in Hlen. lia. }
      exists s', (c :: tail). split; [exact Hrun|]. split.
      * rewrite Hseq. cbn. rewrite <- app_assoc. reflexivity.
      * rewrite <- Hq, Heq. constructor; assumption.
Qed.

Lemma sstf_order_Permutation h l tail : sstf_order h l tail -> tail ≡ₚ l.
Proof.
  induction 1 as [|h before x after rest _ _ _ IH]; [reflexivity|].
  rewrite IH. apply Permutation_middle.
Qed.

(** C5.  At every step SSTF services an element of the remaining queue that
    is strictly nearer to the head than everything before it in the queue
    and at least as near as everything after it (so the earliest of the
    nearest wins), and takes exactly that occurrence out of the queue.
    The loop ends within [len(requests)] iterations with such a sequence,
    which is the sequence of every result SSTF returns. *)
Theorem sstf_services_nearest_first (d : Disk) (fuel : nat) :
  (length (request_queue d) <= fuel)%nat ->
  (exists s, sstf_schedule fuel d = conclude "SSTF" None (request_queue d) s
             /\ sstf_order (current_head d) (request_queue d) (st_sequence s))
  /\ (forall r, sstf_schedule fuel d = Returns r ->
        sstf_order (current_head d) (request_queue d) (sequence r)).
Proof.
  intros Hfuel.
  destruct (sstf_loop_order fuel (initial d "") Hfuel) as (s & tail & Hrun & Hseq & Hord).
  apply sstf_schedule_ends in Hrun. cbn in Hseq, Hord. subst tail.
  split; [exists s; auto|].
  intros r Hr. rewrite Hrun in Hr.
  apply conclude_Returns in Hr as (_ & _ & -> & _). exact Hord.
Qed.

Lemma sstf_services_nearest_first_witness :
  let d := mkDisk 200 50 [51; 49; 52; 48; 50; 195; 5] in
  (length (request_queue d) <= 7)%nat
  /\ (exists r, sstf_schedule 7 d = Returns r
                /\ sequence r = [50; 51; 52; 49; 48; 5; 195])
  /\ (exists s, sstf_schedule 7 d = conclude "SSTF" None (request_queue d) s
                /\ sstf_order (current_head d) (request_queue d) (st_sequence s))
  /\ (forall r, sstf_schedule 7 d = Returns r ->
        sstf_order (current_head d) (request_queue d) (sequence r)).
Proof.
  split; [simpl; lia|].
  split; [eexists; split; [vm_compute; reflexivity|reflexivity]|].
  apply (sstf_services_nearest_first (mkDisk 200 50 [51; 49; 52; 48; 50; 195; 5]) 7).
  simpl. lia.
Defined.

(* ===================================================================== *)
(** ** The serviced requests                                              *)
(* ===================================================================== *)




Lemma wraps_false d dir : wraps d dir = false -> behind d dir = [].
Proof. unfold wraps. destruct (behind d dir); [reflexivity|discriminate]. Qed.

Lemma scan_end_sequence d dir :
  st_sequence (scan_end d dir)
  = outward_leg d dir
    ++ (if wraps d dir then [boundary d dir] else [])
    ++ (if wraps d dir then scan_return_leg d dir else []).
Proof.
  unfold scan_end. destruct (wraps d dir); rewrite !visit_all_eq; cbn.
  - rewrite <- app_assoc. reflexivity.
  - rewrite app_nil_r. reflexivity.
Qed.

Lemma c_scan_end_sequence d dir :
  st_sequence (c_scan_end d dir)
  = outward_leg d dir
    ++ (if wraps d dir then [boundary d dir] else [])
    ++ (if wraps d dir then c_scan_second_leg d dir else []).
Proof.
  unfold c_scan_end. destruct (wraps d dir); rewrite !visit_all_eq; cbn.
  - rewrite <- app_assoc. reflexivity.
  - rewrite app_nil_r. reflexivity.
Qed.

(** The loops of SCAN and C-SCAN on a valid disk end in their closed
    forms; the methods then conclude from there. *)
Lemma scan_schedule_valid d dir fuel :
  valid d -> (length (request_queue d) + 1 <= fuel)%nat ->
  scan_schedule fuel d dir
  = conclude "SCAN" (Some dir) (request_queue d) (scan_end d dir).
Proof. intros Hvalid Hfuel. apply scan_schedule_ends, scan_run; assumption. Qed.

Lemma c_scan_schedule_valid d dir fuel :
  valid d -> (length (request_queue d) + 1 <= fuel)%nat ->
  c_scan_schedule fuel d dir
  = conclude "C-SCAN" (Some dir) (request_queue d) (c_scan_end d dir).
Proof. intros Hvalid Hfuel. apply c_scan_schedule_ends, c_scan_run; assumption. Qed.


Lemma example_disk_valid : valid example_disk.
Proof.
  split; [reflexivity | split; discriminate |].
  unfold example_disk, in_range. cbn. repeat constructor; discriminate.
Defined.


(* ===================================================================== *)
(** ** Movement accounting                                                *)
(* ===================================================================== *)

Lemma tallied_initial d dir : tallied (current_head d) (initial d dir).
Proof. repeat split. Qed.

Lemma tallied_visit h0 s x : tallied h0 s -> tallied h0 (visit x s).
Proof.
  intros (Hm & Ht & Hh). unfold tallied, visit.
  cbn [st_movements st_sequence st_total_movement st_current_head].
  split; [|split].
  - rewrite walk_app, <- Hm, <- Hh. reflexivity.
  - rewrite sum_app, Ht. cbn. lia.
  - rewrite arrive_snoc. reflexivity.
Qed.

Lemma tallied_set_requests h0 s l : tallied h0 s -> tallied h0 (set_requests l s).
Proof. intros H. exact H. Qed.

Lemma tallied_set_direction h0 s dir : tallied h0 s -> tallied h0 (set_direction dir s).
Proof. intros H. exact H. Qed.

Lemma tallied_serve h0 s x : tallied h0 s -> tallied h0 (serve x s).
Proof. intros H. apply tallied_set_requests, tallied_visit, H. Qed.

Lemma sstf_body_tallied h0 s : tallied h0 s -> tallied h0 (sstf_body s).
Proof.
  intros H. unfold sstf_body. destruct (min_by _ _); [apply tallied_serve, H|exact H].
Qed.

Lemma scan_body_tallied total h0 s : tallied h0 s -> tallied h0 (scan_body total s).
Proof.
  intros H. unfold scan_body. destruct (String.eqb _ _).
  - destruct (py_min _);
      [apply tallied_serve, H | apply tallied_set_direction, tallied_visit, H].
  - destruct (py_max _);
      [apply tallied_serve, H | apply tallied_set_direction, tallied_visit, H].
Qed.

(** Whatever the input, the loops of SSTF and SCAN end tallied, and so
    is every result they return. *)
Lemma sstf_loop_tallied fuel d s :
  while_loop pending sstf_body fuel (initial d "") = Some s ->
  tallied (current_head d) s.
Proof.
  intros Hs.
  apply (while_loop_invariant _ _ (tallied (current_head d)) _ _ _
           (fun s Hs _ => sstf_body_tallied _ s Hs) (tallied_initial d "") Hs).
Qed.

Lemma scan_loop_tallied fuel d dir s :
  while_loop pending (scan_body (total_cylinders d)) fuel (initial d dir) = Some s ->
  tallied (current_head d) s.
Proof.
  intros Hs.
  apply (while_loop_invariant _ _ (tallied (current_head d)) _ _ _
           (fun s Hs _ => scan_body_tallied _ _ s Hs) (tallied_initial d dir) Hs).
Qed.

Lemma sstf_schedule_tallied fuel d r :
  sstf_schedule fuel d = Returns r ->
  total_movement r = sum (movements r)
  /\ movements r = walk (current_head d) (sequence r)
  /\ final_position r = arrive (current_head d) (sequence r).
Proof.
  intros (s & Hs & Hr)%sstf_schedule_Returns.
  apply conclude_Returns in Hr as (_ & -> & -> & -> & -> & _).
  destruct (sstf_loop_tallied _ _ _ Hs) as (Hm & Ht & Hh). auto.
Qed.

Lemma scan_schedule_tallied fuel d dir r :
  scan_schedule fuel d dir = Returns r ->
  total_movement r = sum (movements r)
  /\ movements r = walk (current_head d) (sequence r)
  /\ final_position r = arrive (current_head d) (sequence r).
Proof.
  intros (s & Hs & Hr)%scan_schedule_Returns.
  apply conclude_Returns in Hr as (_ & -> & -> & -> & -> & _).
  destruct (scan_loop_tallied _ _ _ _ Hs) as (Hm & Ht & Hh). auto.
Qed.

(** The accounting of C-SCAN in its closed form: the jump goes into the
    total and nowhere else. *)
Lemma c_scan_end_total d dir :
  st_total_movement (c_scan_end d dir)
  = sum (st_movements (c_scan_end d dir))
    + (if wraps d dir then total_cylinders d - 1 else 0).
Proof.
  unfold c_scan_end. destruct (wraps d dir); rewrite !visit_all_eq; cbn -[sum].
  - rewrite !sum_app, sum_singleton. change (sum []) with 0. lia.
  - lia.
Qed.

Lemma c_scan_end_no_wrap d dir :
  wraps d dir = false ->
  st_movements (c_scan_end d dir) = walk (current_head d) (st_sequence (c_scan_end d dir)).
Proof.
  intros Hw. unfold c_scan_end. rewrite Hw, !visit_all_eq. reflexivity.
Qed.

(** The movements C-SCAN records: the walk from the start head to the
    boundary, then the walk from the landing cylinder through the second
    leg; nothing for the jump between the two. *)
Lemma c_scan_end_movements d dir :
  st_movements (c_scan_end d dir)
  = walk (current_head d)
      (outward_leg d dir ++ (if wraps d dir then [boundary d dir] else []))
    ++ (if wraps d dir then walk (landing d dir) (c_scan_second_leg d dir) else []).
Proof.
  unfold c_scan_end, landing. destruct (wraps d dir); rewrite !visit_all_eq;
    state_fields.
  - rewrite walk_app. reflexivity.
  - rewrite !app_nil_r. reflexivity.
Qed.

(** C1, as the code has it.  On a valid disk the loops of FCFS, SSTF and
    SCAN end with a total movement equal to the sum of their movements,
    which are the displacements of walking the sequence from the start
    head.  The loop of C-SCAN ends with the sum of its movements plus
    [total_cylinders - 1] when it makes its wrap jump (some request lies
    behind the start head): the jump is in the total only.  The sequence
    goes from the boundary straight to the second leg, without the landing
    cylinder, and the movements are the walk up to the boundary followed by
    the walk from the landing cylinder, without the jump.  With no wrap,
    C-SCAN's movements are again those of walking its sequence.  Each
    method returns these in its dictionary unless the average overflows
    the float range. *)
Theorem total_movement_accounting (d : Disk) (dir : string) (fuel : nat) :
  valid d -> (length (request_queue d) + 1 <= fuel)%nat ->
  (exists s, fcfs_schedule d = conclude "FCFS" None (request_queue d) s
     /\ st_total_movement s = sum (st_movements s)
     /\ st_movements s = walk (current_head d) (st_sequence s))
  /\ (exists s, sstf_schedule fuel d = conclude "SSTF" None (request_queue d) s
        /\ st_total_movement s = sum (st_movements s)
        /\ st_movements s = walk (current_head d) (st_sequence s))
  /\ (exists s, scan_schedule fuel d dir
                = conclude "SCAN" (Some dir) (request_queue d) s
        /\ st_total_movement s = sum (st_movements s)
        /\ st_movements s = walk (current_head d) (st_sequence s))
  /\ (exists s, c_scan_schedule fuel d dir
                = conclude "C-SCAN" (Some dir) (request_queue d) s
        /\ st_total_movement s
           = sum (st_movements s)
             + (if wraps d dir then total_cylinders d - 1 else 0)
        /\ st_sequence s
           = outward_leg d dir
             ++ (if wraps d dir then boundary d dir :: c_scan_second_leg d dir
                 else [])
        /\ st_movements s
           = walk (current_head d)
               (outward_leg d dir ++ (if wraps d dir then [boundary d dir] else []))
             ++ (if wraps d dir
                 then walk (landing d dir) (c_scan_second_leg d dir) else [])
        /\ (wraps d dir = false ->
            st_movements s = walk (current_head d) (st_sequence s))).
Proof.
  intros Hvalid Hfuel. split; [|split; [|split]].
  - eexists. split; [reflexivity|]. rewrite visit_all_eq. cbn. auto.
  - destruct (sstf_loop_order fuel (initial d ""))
      as (s' & tail & Hrun & _); [cbn; lia|].
    exists s'. split; [apply sstf_schedule_ends, Hrun|].
    destruct (sstf_loop_tallied _ _ _ Hrun) as (Hm & Ht & _). auto.
  - exists (scan_end d dir). split; [apply scan_schedule_valid; assumption|].
    destruct (scan_loop_tallied _ _ _ _ (scan_run d Hvalid dir fuel Hfuel))
      as (Hm & Ht & _). auto.
  - exists (c_scan_end d dir). split; [apply c_scan_schedule_valid; assumption|].
    split; [apply c_scan_end_total|]. split.
    { rewrite c_scan_end_sequence. destruct (wraps d dir); reflexivity. }
    split; [apply c_scan_end_movements|apply c_scan_end_no_wrap].
Qed.

Lemma total_movement_accounting_witness :
  let d := example_disk in
  valid d /\ (length (request_queue d) + 1 <= 8)%nat
  /\ (exists r, c_scan_schedule 8 d "right" = Returns r
        /\ total_movement r = sum (movements r) + 199
        /\ sequence r = [82; 140; 170; 190] ++ [199] ++ [16; 24; 43])
  /\ (exists s, fcfs_schedule d = conclude "FCFS" None (request_queue d) s
     /\ st_total_movement s = sum (st_movements s)
     /\ st_movements s = walk (current_head d) (st_sequence s))
  /\ (exists s, sstf_schedule 8 d = conclude "SSTF" None (request_queue d) s
        /\ st_total_movement s = sum (st_movements s)
        /\ st_movements s = walk (current_head d) (st_sequence s))
  /\ (exists s, scan_schedule 8 d "right"
                = conclude "SCAN" (Some "right") (request_queue d) s
        /\ st_total_movement s = sum (st_movements s)
        /\ st_movements s = walk (current_head d) (st_sequence s))
  /\ (exists s, c_scan_schedule 8 d "right"
                = conclude "C-SCAN" (Some "right") (request_queue d) s
        /\ st_total_movement s
           = sum (st_movements s)
             + (if wraps d "right" then total_cylinders d - 1 else 0)
        /\ st_sequence s
           = outward_leg d "right"
             ++ (if wraps d "right"
                 then boundary d "right" :: c_scan_second_leg d "right" else [])
        /\ st_movements s
           = walk (current_head d)
               (outward_leg d "right"
                ++ (if wraps d "right" then [boundary d "right"] else []))
             ++ (if wraps d "right"
                 then walk (landing d "right") (c_scan_second_leg d "right") else [])
        /\ (wraps d "right" = false ->
            st_movements s = walk (current_head d) (st_sequence s))).
Proof.
  split; [exact example_disk_valid|]. split; [simpl; lia|].
  split; [eexists; split; [vm_compute; reflexivity|split; reflexivity]|].
  apply (total_movement_accounting example_disk "right" 8);
    [exact example_disk_valid | simpl; lia].
Defined.

(** C1 as stated fails for C-SCAN when the wrap jump occurs: on the example
    disk the total movement is 391, the movements sum to 192, and walking
    the sequence from the start head gives 359. *)
Lemma c_scan_total_exceeds_movements :
  valid example_disk
  /\ exists r, c_scan_schedule 8 example_disk "right" = Returns r
       /\ total_movement r = 391
       /\ sum (movements r) = 192
       /\ sum (walk (current_head example_disk) (sequence r)) = 359
       /\ total_movement r <> sum (movements r)
       /\ sum (movements r) <> sum (walk (current_head example_disk) (sequence r)).
Proof.
  split; [exact example_disk_valid|].
  eexists. split; [vm_compute; reflexivity|].
  vm_compute. repeat split; discriminate.
Qed.

(* ===================================================================== *)
(** ** SCAN against the sweep of the workload demo                        *)
(* ===================================================================== *)

Lemma workload_fold (order : list Z) : forall (h t : Z) (seq : list Z),
  fold_left Workload.step order (h, t, seq)
  = (arrive h order, t + sum (walk h order), seq ++ order).
Proof.
  induction order as [|x l IH]; intros h t seq.
  - cbn. rewrite Z.add_0_r, app_nil_r. reflexivity.
  - cbn [fold_left Workload.step]. rewrite IH, arrive_cons, <- app_assoc.
    change (walk h (x :: l)) with (Z.abs (h - x) :: walk x l).
    change (sum (Z.abs (h - x) :: walk x l)) with (Z.abs (h - x) + sum (walk x l)).
    rewrite Z.add_assoc. reflexivity.
Qed.

(** The last element of a sorted list is its greatest. *)
Lemma Sorted_arrive_greatest (l : list Z) : forall h x,
  StronglySorted Z.le l -> x ∈ l -> x <= arrive h l.
Proof.
  induction l as [|y l IH]; intros h x Hs Hx; [by apply elem_of_nil in Hx|].
  apply StronglySorted_inv in Hs as [Hs Hy]. rewrite arrive_cons.
  apply elem_of_cons in Hx as [->|Hx]; [apply arrive_lower_bound, Hy|].
  apply IH; assumption.
Qed.

Lemma top_upper_bound (d : Disk) :
  current_head d <= top d /\ Forall (fun r => r <= top d) (request_queue d).
Proof.
  unfold top. induction (request_queue d) as [|x l [IH1 IH2]]; cbn [foldr].
  - split; [lia|constructor].
  - split; [lia|]. constructor; [lia|].
    eapply Forall_impl; [exact IH2|]. cbn beta. intros; lia.
Qed.

Lemma top_attained (d : Disk) : top d ∈ current_head d :: request_queue d.
Proof.
  unfold top. induction (request_queue d) as [|x l IH]; cbn [foldr].
  - apply list_elem_of_here.
  - destruct (Z.max_spec x (foldr Z.max (current_head d) l)) as [[_ ->]|[_ ->]].
    + apply elem_of_cons in IH as [->|IH].
      * apply list_elem_of_here.
      * do 2 apply list_elem_of_further. exact IH.
    + apply list_elem_of_further, list_elem_of_here.
Qed.

(** The upward sweep of SCAN ends on the highest cylinder among the head
    and the requests. *)
Lemma arrive_outward_top (d : Disk) :
  arrive (current_head d) (sorted (ahead d "right")) = top d.
Proof.
  set (up := ahead d "right").
  assert (Forall (fun r => current_head d <= r) (sorted up)) as Hup.
  { apply Forall_sorted, Forall_forall. unfold up, ahead. cbn.
    intros r [Hr _]%list_elem_of_filter. exact Hr. }
  destruct (top_upper_bound d) as [Hh Hq]. rewrite Forall_forall in Hq.
  apply Z.le_antisymm.
  - destruct (sorted up) as [|x l] eqn:Hs; [rewrite arrive_nil; exact Hh|].
    apply Hq. assert (arrive (current_head d) (x :: l) ∈ sorted up) as Hin
      by (rewrite Hs; apply arrive_elem_of; done).
    rewrite sorted_Permutation in Hin. unfold up, ahead in Hin. cbn in Hin.
    apply list_elem_of_filter in Hin. tauto.
  - pose proof (top_attained d) as [->|Hin]%elem_of_cons;
      [apply arrive_lower_bound, Hup|].
    apply Sorted_arrive_greatest.
    + apply Sorted_StronglySorted; [apply _|apply Sorted_sorted].
    + rewrite sorted_Permutation. unfold up, ahead. cbn.
      apply list_elem_of_filter. auto.
Qed.

(** Going on to a boundary [b] before returning costs twice the distance
    to it. *)
Lemma detour (a b : Z) (l : list Z) :
  l <> [] -> Forall (fun r => r <= a) l -> a <= b ->
  Z.abs (a - b) + sum (walk b l) = sum (walk a l) + 2 * (b - a).
Proof.
  intros Hl Hle Hab. destruct l as [|x l]; [done|].
  apply Forall_cons in Hle as [Hx _]. cbn. lia.
Qed.

(** C9, as the code has it.  On a valid disk and direction ['right'], SCAN
    and the SCAN of the workload demo service the requests in the same
    order: those at or above the head ascending, then those below it
    descending; SCAN alone inserts the boundary visit between the two when
    some request lies below the head.  Their totals are equal when no
    request lies below the head; otherwise SCAN's total is larger by twice
    the distance from the highest cylinder among head and requests to the
    boundary.  This is the state in which SCAN's loop ends, and so what
    every result it returns has; it returns unless the average overflows
    the float range. *)
Theorem scan_against_workload_scan (d : Disk) (fuel : nat) :
  valid d -> (length (request_queue d) + 1 <= fuel)%nat ->
  snd (Workload.scan_schedule d "right")
  = sorted (ahead d "right") ++ reverse (sorted (behind d "right"))
  /\ (exists s, scan_schedule fuel d "right"
                = conclude "SCAN" (Some "right") (request_queue d) s
        /\ st_sequence s
           = sorted (ahead d "right")
             ++ (if wraps d "right" then [total_cylinders d - 1] else [])
             ++ reverse (sorted (behind d "right"))
        /\ st_total_movement s
           = fst (Workload.scan_schedule d "right")
             + (if wraps d "right" then 2 * (total_cylinders d - 1 - top d) else 0))
  /\ (forall r, scan_schedule fuel d "right" = Returns r ->
        sequence r
        = sorted (ahead d "right")
          ++ (if wraps d "right" then [total_cylinders d - 1] else [])
          ++ reverse (sorted (behind d "right"))
        /\ total_movement r
           = fst (Workload.scan_schedule d "right")
             + (if wraps d "right" then 2 * (total_cylinders d - 1 - top d) else 0)).
Proof.
  intros Hvalid Hfuel.
  assert (Workload.scan_schedule d "right"
          = (sum (walk (current_head d)
                   (sorted (ahead d "right") ++ reverse (sorted (behind d "right")))),
             sorted (ahead d "right") ++ reverse (sorted (behind d "right"))))
    as ->.
  { unfold Workload.scan_schedule. cbn [String.eqb Ascii.eqb Bool.eqb].
    rewrite !filter_sorted, workload_fold. reflexivity. }
  cbn [fst snd].
  assert (st_sequence (scan_end d "right")
          = sorted (ahead d "right")
            ++ (if wraps d "right" then [total_cylinders d - 1] else [])
            ++ reverse (sorted (behind d "right"))) as Hseq.
  { rewrite scan_end_sequence. unfold outward_leg, scan_return_leg, boundary.
    cbn [String.eqb Ascii.eqb Bool.eqb].
    destruct (wraps d "right") eqn:Hw; [reflexivity|].
    rewrite (wraps_false _ _ Hw). reflexivity. }
  assert (st_total_movement (scan_end d "right")
          = sum (walk (current_head d)
                   (sorted (ahead d "right") ++ reverse (sorted (behind d "right"))))
            + (if wraps d "right" then 2 * (total_cylinders d - 1 - top d) else 0))
    as Htotal.
  { unfold scan_end, outward_leg, scan_return_leg, boundary.
    cbn [String.eqb Ascii.eqb Bool.eqb].
    destruct (wraps d "right") eqn:Hw; rewrite !visit_all_eq; state_fields.
    - rewrite walk_app, sum_app, arrive_outward_top.
      enough (Z.abs (top d - (total_cylinders d - 1))
              + sum (walk (total_cylinders d - 1) (reverse (sorted (behind d "right"))))
              = sum (walk (top d) (reverse (sorted (behind d "right"))))
                + 2 * (total_cylinders d - 1 - top d)) by lia.
      apply detour.
      + unfold wraps in Hw. intros E.
        apply (f_equal length) in E. rewrite length_reverse, length_sorted in E.
        destruct (behind d "right"); [discriminate|discriminate].
      + destruct (top_upper_bound d) as [Hh _].
        apply Forall_forall. intros x Hx. rewrite elem_of_reverse in Hx.
        rewrite sorted_Permutation in Hx. unfold behind in Hx. cbn in Hx.
        apply list_elem_of_filter in Hx. lia.
      + pose proof (top_attained d) as [->|Hin]%elem_of_cons.
        * destruct (valid_head d Hvalid). lia.
        * apply (valid_request d Hvalid) in Hin. lia.
    - rewrite (wraps_false _ _ Hw). rewrite sorted_nil, reverse_nil, app_nil_r. lia. }
  pose proof (scan_schedule_valid d "right" fuel Hvalid Hfuel) as Hrun.
  split; [reflexivity|]. split.
  - exists (scan_end d "right"). auto.
  - intros r Hr. rewrite Hrun in Hr.
    apply conclude_Returns in Hr as (_ & -> & -> & _). auto.
Qed.

Lemma scan_against_workload_scan_witness :
  let d := example_disk in
  valid d /\ (length (request_queue d) + 1 <= 8)%nat
  /\ (exists r, scan_schedule 8 d "right" = Returns r
        /\ sequence r = [82; 140; 170; 190; 199; 43; 24; 16])
  /\ snd (Workload.scan_schedule d "right")
     = sorted (ahead d "right") ++ reverse (sorted (behind d "right"))
  /\ (exists s, scan_schedule 8 d "right"
                = conclude "SCAN" (Some "right") (request_queue d) s
        /\ st_sequence s
           = sorted (ahead d "right")
             ++ (if wraps d "right" then [total_cylinders d - 1] else [])
             ++ reverse (sorted (behind d "right"))
        /\ st_total_movement s
           = fst (Workload.scan_schedule d "right")
             + (if wraps d "right" then 2 * (total_cylinders d - 1 - top d) else 0))
  /\ (forall r, scan_schedule 8 d "right" = Returns r ->
        sequence r
        = sorted (ahead d "right")
          ++ (if wraps d "right" then [total_cylinders d - 1] else [])
          ++ reverse (sorted (behind d "right"))
        /\ total_movement r
           = fst (Workload.scan_schedule d "right")
             + (if wraps d "right" then 2 * (total_cylinders d - 1 - top d) else 0)).
Proof.
  split; [exact example_disk_valid|]. split; [simpl; lia|].
  split; [eexists; split; [vm_compute; reflexivity|reflexivity]|].
  apply (scan_against_workload_scan example_disk 8);
    [exact example_disk_valid | simpl; lia].
Defined.

(** C9 as stated fails: on the example disk the two implementations
    service the requests in the same order but SCAN moves 332 cylinders and
    the workload demo 314. *)
Lemma scan_totals_differ :
  valid example_disk
  /\ exists r, scan_schedule 8 example_disk "right" = Returns r
       /\ total_movement r = 332
       /\ fst (Workload.scan_schedule example_disk "right") = 314
       /\ total_movement r <> fst (Workload.scan_schedule example_disk "right").
Proof.
  split; [exact example_disk_valid|].
  eexists. split; [vm_compute; reflexivity|].
  vm_compute. repeat split; discriminate.
Qed.

(* ===================================================================== *)
(** ** Inputs the specification calls invalid                             *)
(* ===================================================================== *)












(** Without validation an out-of-range request can keep C-SCAN in its loop
    for ever: a request below cylinder 0 is never reached by the upward
    sweep, which wraps again and again. *)
Lemma c_scan_negative_request_loops (fuel : nat) :
  c_scan_schedule fuel (mkDisk 200 50 [-1]) "right" = Running.
Proof.
  unfold c_scan_schedule.
  enough (forall s, st_requests s = [-1] -> st_current_direction s = "right" ->
            0 <= st_current_head s ->
            while_loop pending (c_scan_body 200) fuel s = None) as H
    by (cbn [total_cylinders]; rewrite H; [reflexivity..|cbn; lia]).
  induction fuel as [|n IH]; intros s Hq Hd Hh.
  - simpl. unfold pending. rewrite Hq. reflexivity.
  - rewrite while_loop_step by (unfold pending; rewrite Hq; reflexivity).
    assert (c_scan_body 200 s = set_head 0 (add_total (200 - 1) (visit (200 - 1) s)))
      as ->.
    { apply c_scan_body_wrap_right; [rewrite Hd; reflexivity|].
      rewrite Hq. apply filter_none. constructor; [lia|constructor]. }
    apply IH; state_fields; [exact Hq|exact Hd|lia].
Qed.




(* ===================================================================== *)
(** ** The workload demo against the simulator                            *)
(* ===================================================================== *)

(** Two loops whose states stay related run in step. *)
Lemma while_loop_simulation {S S' : Type} (R : S -> S' -> Prop)
    (cond : S -> bool) (body : S -> S) (cond' : S' -> bool) (body' : S' -> S') :
  (forall s s', R s s' -> cond s = cond' s') ->
  (forall s s', R s s' -> R (body s) (body' s')) ->
  forall fuel s s', R s s' ->
    match while_loop cond body fuel s, while_loop cond' body' fuel s' with
    | Some r, Some r' => R r r'
    | None, None => True
    | _, _ => False
    end.
Proof.
  intros Hcond Hbody. induction fuel as [|n IH]; intros s s' HR; simpl;
    rewrite <- (Hcond s s' HR); destruct (cond s); try exact HR; try exact I.
  apply IH, Hbody, HR.
Qed.

(** X1.  The FCFS of the workload demo returns the total movement and the
    sequence with which the loop of the simulator's FCFS ends, on every
    input; these are the ones in every result the simulator's FCFS
    returns. *)
Theorem workload_fcfs_agrees (d : Disk) :
  (exists s, fcfs_schedule d = conclude "FCFS" None (request_queue d) s
             /\ Workload.fcfs_schedule d = (st_total_movement s, st_sequence s))
  /\ (forall r, fcfs_schedule d = Returns r ->
        Workload.fcfs_schedule d = (total_movement r, sequence r)).
Proof.
  assert (Workload.fcfs_schedule d
          = (st_total_movement (visit_all (request_queue d) (initial d "")),
             st_sequence (visit_all (request_queue d) (initial d "")))) as Hw.
  { unfold Workload.fcfs_schedule. rewrite workload_fold, visit_all_eq. reflexivity. }
  split.
  - eexists. split; [reflexivity|exact Hw].
  - intros r Hr. apply conclude_Returns in Hr as (_ & -> & -> & _). exact Hw.
Qed.

(** X2.  The SSTF of the workload demo runs in step with the simulator's
    SSTF: for every input and budget, when it returns, the simulator's loop
    has ended with the same total movement and sequence (the ones in every
    result the simulator's SSTF returns), and when it is still looping so
    is the simulator's. *)
Theorem workload_sstf_agrees (fuel : nat) (d : Disk) :
  match Workload.sstf_schedule fuel d with
  | Some answer =>
      (exists s, sstf_schedule fuel d = conclude "SSTF" None (request_queue d) s
                 /\ answer = (st_total_movement s, st_sequence s))
      /\ (forall r, sstf_schedule fuel d = Returns r ->
            answer = (total_movement r, sequence r))
  | None => sstf_schedule fuel d = Running
  end.
Proof.
  unfold Workload.sstf_schedule, sstf_schedule.
  set (R := fun (s : State) (acc : Z * list Z * Z * list Z) =>
              acc = (st_current_head s, st_requests s,
                     st_total_movement s, st_sequence s)).
  assert (forall s acc, R s acc -> pending s = Workload.sstf_pending acc) as Hc.
  { intros s acc ->. reflexivity. }
  assert (forall s acc, R s acc -> R (sstf_body s) (Workload.sstf_body acc)) as Hb.
  { intros s acc ->. unfold R, Workload.sstf_body, sstf_body.
    destruct (min_by _ (st_requests s)); reflexivity. }
  pose proof (while_loop_simulation R _ _ _ _ Hc Hb fuel (initial d "")
                (current_head d, request_queue d, 0, []) eq_refl) as Hsim.
  destruct (while_loop pending _ _ _) as [s|],
           (while_loop Workload.sstf_pending _ _ _) as [acc|]; try done.
  unfold R in Hsim. subst acc. cbn. split.
  - exists s. auto.
  - intros r Hr. apply conclude_Returns in Hr as (_ & -> & -> & _). reflexivity.
Qed.

(** X3.  In either direction the SCAN of the workload demo services a
    permutation of the requests, on every input, and its total movement is
    that of walking its sequence from the start head. *)
Theorem workload_scan_services_all (d : Disk) (dir : string) :
  snd (Workload.scan_schedule d dir) ≡ₚ request_queue d
  /\ fst (Workload.scan_schedule d dir)
     = sum (walk (current_head d) (snd (Workload.scan_schedule d dir))).
Proof.
  unfold Workload.scan_schedule. rewrite workload_fold. cbn [fst snd app].
  split; [|lia].
  destruct (String.eqb dir "right"); rewrite !filter_sorted,
    ?reverse_Permutation, !sorted_Permutation.
  - apply filter_split_Permutation. intros; lia.
  - apply filter_split_Permutation. intros; lia.
Qed.

(* ===================================================================== *)
(** ** What every run keeps                                               *)
(* ===================================================================== *)

(** The shapes an iteration of each loop can take. *)
Lemma sstf_body_cases (s : State) :
  (exists m, m ∈ st_requests s /\ sstf_body s = serve m s) \/ sstf_body s = s.
Proof.
  unfold sstf_body. destruct (min_by _ _) as [m|] eqn:Hm; [left|right; reflexivity].
  exists m. split; [eapply min_by_elem_of, Hm|reflexivity].
Qed.

Lemma scan_body_cases (total : Z) (s : State) :
  (exists m, m ∈ st_requests s /\ scan_body total s = serve m s)
  \/ (exists b dir, (b = total - 1 \/ b = 0)
        /\ scan_body total s = set_direction dir (visit b s)).
Proof.
  unfold scan_body. destruct (String.eqb _ _).
  - destruct (py_min _) as [m|] eqn:Hm.
    + left. exists m. split; [|reflexivity].
      apply min_by_elem_of, list_elem_of_filter in Hm. tauto.
    + right. exists (total - 1), "left". auto.
  - destruct (py_max _) as [m|] eqn:Hm.
    + left. exists m. split; [|reflexivity].
      apply py_max_elem_of, list_elem_of_filter in Hm. tauto.
    + right. exists 0, "right". auto.
Qed.

Lemma c_scan_body_cases (total : Z) (s : State) :
  (exists m, m ∈ st_requests s /\ c_scan_body total s = serve m s)
  \/ (exists b h', (b = total - 1 \/ b = 0) /\ (h' = 0 \/ h' = total - 1)
        /\ c_scan_body total s = set_head h' (add_total (total - 1) (visit b s))).
Proof.
  unfold c_scan_body. destruct (String.eqb _ _).
  - destruct (py_min _) as [m|] eqn:Hm.
    + left. exists m. split; [|reflexivity].
      apply min_by_elem_of, list_elem_of_filter in Hm. tauto.
    + right. exists (total - 1), 0. auto.
  - destruct (py_max _) as [m|] eqn:Hm.
    + left. exists m. split; [|reflexivity].
      apply py_max_elem_of, list_elem_of_filter in Hm. tauto.
    + right. exists 0, (total - 1). auto.
Qed.

(** A loop that keeps an invariant hands it to the result. *)
Lemma while_loop_keeps {S : Type} (I : S -> Prop) cond body fuel (s r : S) :
  (forall s, I s -> I (body s)) ->
  I s -> while_loop cond body fuel s = Some r -> I r.
Proof.
  intros Hbody Hs Hr.
  apply (while_loop_invariant cond body I fuel s r); auto.
Qed.

Lemma recorded_visit s x : recorded s -> recorded (visit x s).
Proof.
  intros [Hlen Hpos]. split; cbn.
  - rewrite !length_app, Hlen. reflexivity.
  - apply Forall_app. split; [exact Hpos|]. constructor; [lia|constructor].
Qed.

Lemma recorded_sstf_body s : recorded s -> recorded (sstf_body s).
Proof.
  intros H. destruct (sstf_body_cases s) as [(m & _ & ->)| ->]; [|exact H].
  apply (recorded_visit s m H).
Qed.

Lemma recorded_scan_body total s : recorded s -> recorded (scan_body total s).
Proof.
  intros H. destruct (scan_body_cases total s)
    as [(m & _ & ->)|(b & dir & _ & ->)].
  - apply (recorded_visit s m H).
  - apply (recorded_visit s b H).
Qed.

Lemma recorded_c_scan_body total s : recorded s -> recorded (c_scan_body total s).
Proof.
  intros H. destruct (c_scan_body_cases total s)
    as [(m & _ & ->)|(b & h' & _ & _ & ->)].
  - apply (recorded_visit s m H).
  - apply (recorded_visit s b H).
Qed.

Lemma recorded_initial d dir : recorded (initial d dir).
Proof. split; [reflexivity|constructor]. Qed.

Lemma recorded_visit_all l s : recorded s -> recorded (visit_all l s).
Proof.
  revert s. induction l as [|x l IH]; intros s H; [exact H|].
  rewrite visit_all_cons. apply IH, recorded_visit, H.
Qed.

(** X4.  Whatever the input, a result returned by any of the four
    algorithms has one movement per entry of its sequence, and no movement
    is negative (the wrap jump of C-SCAN, which is in neither list, does
    not break the pairing). *)
Theorem movements_pair_with_sequence (d : Disk) (dir : string) (fuel : nat)
    (r : ScheduleResult) :
  fcfs_schedule d = Returns r
  \/ sstf_schedule fuel d = Returns r
  \/ scan_schedule fuel d dir = Returns r
  \/ c_scan_schedule fuel d dir = Returns r ->
  length (movements r) = length (sequence r)
  /\ Forall (fun m => 0 <= m) (movements r).
Proof.
  intros Hr.
  enough (exists s, recorded s /\ sequence r = st_sequence s
                    /\ movements r = st_movements s)
    as (s & Hrec & -> & ->) by exact Hrec.
  destruct Hr as [Hr|[Hr|[Hr|Hr]]].
  - apply conclude_Returns in Hr as (_ & _ & Hseq & Hmov & _).
    eexists. split; [|split; eassumption].
    apply (recorded_visit_all _ _ (recorded_initial d "")).
  - apply sstf_schedule_Returns in Hr as (s & Hs & Hr).
    apply conclude_Returns in Hr as (_ & _ & Hseq & Hmov & _).
    exists s. split; [|split; assumption].
    apply (while_loop_keeps recorded _ _ _ _ _ recorded_sstf_body
             (recorded_initial d "") Hs).
  - apply scan_schedule_Returns in Hr as (s & Hs & Hr).
    apply conclude_Returns in Hr as (_ & _ & Hseq & Hmov & _).
    exists s. split; [|split; assumption].
    apply (while_loop_keeps recorded _ _ _ _ _ (recorded_scan_body _)
             (recorded_initial d dir) Hs).
  - apply c_scan_schedule_Returns in Hr as (s & Hs & Hr).
    apply conclude_Returns in Hr as (_ & _ & Hseq & Hmov & _).
    exists s. split; [|split; assumption].
    apply (while_loop_keeps recorded _ _ _ _ _ (recorded_c_scan_body _)
             (recorded_initial d dir) Hs).
Qed.

(** The run of C-SCAN on the example disk; its average is 391 / 7 rounded
    to a double, 7861193992419035 / 2 ^ 47. *)
Lemma c_scan_example_run :
  c_scan_schedule 8 example_disk "right"
  = Returns (mkResult "C-SCAN" 391 (Qmake 7861193992419035 (2 ^ 47))
               [82; 140; 170; 190; 199; 16; 24; 43]
               [32; 58; 30; 20; 9; 16; 8; 19] 43 (Some "right")).
Proof. vm_compute. reflexivity. Defined.

Lemma movements_pair_with_sequence_witness :
  let r := mkResult "C-SCAN" 391 (Qmake 7861193992419035 (2 ^ 47))
             [82; 140; 170; 190; 199; 16; 24; 43]
             [32; 58; 30; 20; 9; 16; 8; 19] 43 (Some "right") in
  (fcfs_schedule example_disk = Returns r
   \/ sstf_schedule 8 example_disk = Returns r
   \/ scan_schedule 8 example_disk "right" = Returns r
   \/ c_scan_schedule 8 example_disk "right" = Returns r)
  /\ length (movements r) = length (sequence r)
  /\ Forall (fun m => 0 <= m) (movements r).
Proof.
  split; [do 3 right; exact c_scan_example_run|].
  apply (movements_pair_with_sequence example_disk "right" 8).
  do 3 right. exact c_scan_example_run.
Defined.

Lemma in_range_remove_first total x l :
  Forall (in_range total) l -> Forall (in_range total) (remove_first x l).
Proof.
  rewrite !Forall_forall. intros H y Hy. apply H, (elem_of_remove_first x), Hy.
Qed.

Lemma on_disk_serve total s m :
  m ∈ st_requests s -> on_disk total s -> on_disk total (serve m s).
Proof.
  intros Hm (Hh & Hs & Hq).
  assert (in_range total m) as Hin by (rewrite Forall_forall in Hq; auto).
  split; [exact Hin|]. split; cbn.
  - apply Forall_app. split; [exact Hs|]. constructor; [exact Hin|constructor].
  - apply in_range_remove_first, Hq.
Qed.

Lemma on_disk_visit total s b :
  in_range total b -> on_disk total s -> on_disk total (visit b s).
Proof.
  intros Hin (Hh & Hs & Hq). split; [exact Hin|]. split; cbn; [|exact Hq].
  apply Forall_app. split; [exact Hs|]. constructor; [exact Hin|constructor].
Qed.

Lemma on_disk_sstf_body total s : on_disk total s -> on_disk total (sstf_body s).
Proof.
  intros H. destruct (sstf_body_cases s) as [(m & Hm & ->)| ->]; [|exact H].
  apply on_disk_serve; assumption.
Qed.

Lemma on_disk_scan_body total s :
  0 < total -> on_disk total s -> on_disk total (scan_body total s).
Proof.
  intros Ht H. destruct (scan_body_cases total s)
    as [(m & Hm & ->)|(b & dir & Hb & ->)].
  - apply on_disk_serve; assumption.
  - apply (on_disk_visit total s b); [unfold in_range; lia|exact H].
Qed.

Lemma on_disk_c_scan_body total s :
  0 < total -> on_disk total s -> on_disk total (c_scan_body total s).
Proof.
  intros Ht H. destruct (c_scan_body_cases total s)
    as [(m & Hm & ->)|(b & h' & Hb & Hh' & ->)].
  - apply on_disk_serve; assumption.
  - destruct (on_disk_visit total s b) as (_ & Hs & Hq);
      [unfold in_range; lia|exact H|].
    split; [unfold in_range; cbn; lia|]. split; assumption.
Qed.

Lemma on_disk_initial d dir : valid d -> on_disk (total_cylinders d) (initial d dir).
Proof.
  intros [Ht Hh Hq]. split; [exact Hh|]. split; [constructor|exact Hq].
Qed.

Lemma on_disk_visit_all total l s :
  Forall (in_range total) l -> on_disk total s -> on_disk total (visit_all l s).
Proof.
  revert s. induction l as [|x l IH]; intros s Hl H; [exact H|].
  apply Forall_cons in Hl as [Hx Hl]. rewrite visit_all_cons.
  apply IH; [exact Hl|]. apply on_disk_visit; assumption.
Qed.

(** X5.  On a valid disk the head never leaves the disk: every cylinder in
    the sequence of a returned result, synthetic visits included, and the
    final position lie in [0, total_cylinders - 1], for each of the four
    algorithms. *)
Theorem head_stays_on_disk (d : Disk) (dir : string) (fuel : nat)
    (r : ScheduleResult) :
  valid d ->
  fcfs_schedule d = Returns r
  \/ sstf_schedule fuel d = Returns r
  \/ scan_schedule fuel d dir = Returns r
  \/ c_scan_schedule fuel d dir = Returns r ->
  Forall (in_range (total_cylinders d)) (sequence r)
  /\ in_range (total_cylinders d) (final_position r).
Proof.
  intros Hvalid Hr.
  enough (exists s, on_disk (total_cylinders d) s
                    /\ sequence r = st_sequence s
                    /\ final_position r = st_current_head s)
    as (s & (Hh & Hs & _) & -> & ->) by auto.
  pose proof (valid_geometry d Hvalid) as Ht.
  destruct Hr as [Hr|[Hr|[Hr|Hr]]].
  - apply conclude_Returns in Hr as (_ & _ & Hseq & _ & Hfin & _).
    eexists. split; [|split; eassumption].
    apply on_disk_visit_all; [apply (valid_requests d Hvalid)|].
    apply on_disk_initial, Hvalid.
  - apply sstf_schedule_Returns in Hr as (s & Hs & Hr).
    apply conclude_Returns in Hr as (_ & _ & Hseq & _ & Hfin & _).
    exists s. split; [|split; assumption].
    apply (while_loop_keeps (on_disk _) _ _ _ _ _ (on_disk_sstf_body _)
             (on_disk_initial d "" Hvalid) Hs).
  - apply scan_schedule_Returns in Hr as (s & Hs & Hr).
    apply conclude_Returns in Hr as (_ & _ & Hseq & _ & Hfin & _).
    exists s. split; [|split; assumption].
    apply (while_loop_keeps (on_disk _) _ _ _ _ _
             (fun s => on_disk_scan_body _ s Ht) (on_disk_initial d dir Hvalid) Hs).
  - apply c_scan_schedule_Returns in Hr as (s & Hs & Hr).
    apply conclude_Returns in Hr as (_ & _ & Hseq & _ & Hfin & _).
    exists s. split; [|split; assumption].
    apply (while_loop_keeps (on_disk _) _ _ _ _ _
             (fun s => on_disk_c_scan_body _ s Ht) (on_disk_initial d dir Hvalid) Hs).
Qed.

Lemma head_stays_on_disk_witness :
  let r := mkResult "C-SCAN" 391 (Qmake 7861193992419035 (2 ^ 47))
             [82; 140; 170; 190; 199; 16; 24; 43]
             [32; 58; 30; 20; 9; 16; 8; 19] 43 (Some "right") in
  valid example_disk
  /\ (fcfs_schedule example_disk = Returns r
      \/ sstf_schedule 8 example_disk = Returns r
      \/ scan_schedule 8 example_disk "right" = Returns r
      \/ c_scan_schedule 8 example_disk "right" = Returns r)
  /\ Forall (in_range (total_cylinders example_disk)) (sequence r)
  /\ in_range (total_cylinders example_disk) (final_position r).
Proof.
  split; [exact example_disk_valid|].
  split; [do 3 right; exact c_scan_example_run|].
  apply (head_stays_on_disk example_disk "right" 8);
    [exact example_disk_valid|].
  do 3 right. exact c_scan_example_run.
Defined.

Lemma covers_serve q s m : m ∈ st_requests s -> covers q s -> covers q (serve m s).
Proof.
  unfold covers. intros Hm H. cbn. rewrite <- app_assoc. cbn.
  rewrite <- (remove_first_Permutation _ _ Hm). exact H.
Qed.

Lemma covers_visit q s b : covers q s -> covers q (visit b s).
Proof.
  unfold covers. intros H. cbn. rewrite <- app_assoc.
  etrans; [exact H|]. apply submseteq_skips_l, submseteq_inserts_l. reflexivity.
Qed.

Lemma covers_scan_body q total s : covers q s -> covers q (scan_body total s).
Proof.
  intros H. destruct (scan_body_cases total s)
    as [(m & Hm & ->)|(b & dir & _ & ->)].
  - apply covers_serve; assumption.
  - apply (covers_visit q s b H).
Qed.

Lemma covers_c_scan_body q total s : covers q s -> covers q (c_scan_body total s).
Proof.
  intros H. destruct (c_scan_body_cases total s)
    as [(m & Hm & ->)|(b & h' & _ & _ & ->)].
  - apply covers_serve; assumption.
  - apply (covers_visit q s b H).
Qed.

Lemma covers_initial d dir : covers (request_queue d) (initial d dir).
Proof. unfold covers. cbn. reflexivity. Qed.

Lemma covers_exit q s : covers q s -> pending s = false -> q ⊆+ st_sequence s.
Proof.
  unfold covers. intros H Hp%pending_false. rewrite Hp, app_nil_r in H. exact H.
Qed.

(** X6.  Whatever the input, valid or not, a result returned by SCAN or
    C-SCAN contains every request in its sequence, as many times as the
    request occurs in the queue: the loop is left only when the working
    copy is empty, and only servicing takes requests out of it. *)
Theorem sweeps_return_only_when_all_serviced (d : Disk) (dir : string)
    (fuel : nat) (r : ScheduleResult) :
  scan_schedule fuel d dir = Returns r \/ c_scan_schedule fuel d dir = Returns r ->
  request_queue d ⊆+ sequence r.
Proof.
  intros [Hr|Hr].
  - apply scan_schedule_Returns in Hr as (s & Hs & Hr).
    apply conclude_Returns in Hr as (_ & _ & -> & _).
    destruct (while_loop_invariant _ _ (covers (request_queue d)) _ _ _
                (fun s Hs _ => covers_scan_body _ _ s Hs) (covers_initial d dir) Hs)
      as [Hc Hp].
    apply (covers_exit _ _ Hc Hp).
  - apply c_scan_schedule_Returns in Hr as (s & Hs & Hr).
    apply conclude_Returns in Hr as (_ & _ & -> & _).
    destruct (while_loop_invariant _ _ (covers (request_queue d)) _ _ _
                (fun s Hs _ => covers_c_scan_body _ _ s Hs) (covers_initial d dir) Hs)
      as [Hc Hp].
    apply (covers_exit _ _ Hc Hp).
Qed.

(** A run of SCAN on requests off the disk; its average is 3810 / 3, the
    double 1270. *)
Lemma scan_out_of_range_run :
  scan_schedule 5 (mkDisk 10 500 [2000; 300; -5]) "right"
  = Returns (mkResult "SCAN" 3810 (Qmake (1270 * 2 ^ 42) (2 ^ 42))
               [2000; 9; -5; 0; 300]
               [1500; 1991; 14; 5; 300] 300 (Some "right")).
Proof. vm_compute. reflexivity. Defined.

Lemma sweeps_return_only_when_all_serviced_witness :
  let d := mkDisk 10 500 [2000; 300; -5] in
  let r := mkResult "SCAN" 3810 (Qmake (1270 * 2 ^ 42) (2 ^ 42))
             [2000; 9; -5; 0; 300]
             [1500; 1991; 14; 5; 300] 300 (Some "right") in
  (scan_schedule 5 d "right" = Returns r \/ c_scan_schedule 5 d "right" = Returns r)
  /\ request_queue d ⊆+ sequence r.
Proof.
  split; [left; exact scan_out_of_range_run|].
  apply (sweeps_return_only_when_all_serviced
           (mkDisk 10 500 [2000; 300; -5]) "right" 5).
  left. exact scan_out_of_range_run.
Defined.

(* ===================================================================== *)
(** ** SCAN and C-SCAN on inputs that are not valid                       *)
(* ===================================================================== *)

(** An upward sweep of SCAN either finishes the queue or ends with the turn
    at the upper boundary; a downward sweep likewise at cylinder 0. *)
Lemma scan_up_then (total : Z) (s : State) (fuel : nat) :
  String.eqb (st_current_direction s) "right" = true ->
  (length (filter (fun r => (st_current_head s <= r)%Z) (st_requests s)) + 1 <= fuel)%nat ->
  is_Some (while_loop pending (scan_body total) fuel s)
  \/ exists s2,
       while_loop pending (scan_body total) fuel s
       = while_loop pending (scan_body total)
           (fuel - length (filter (fun r => (st_current_head s <= r)%Z) (st_requests s)) - 1)
           s2
       /\ st_current_head s2 = total - 1
       /\ String.eqb (st_current_direction s2) "right" = false
       /\ st_requests s2 = filter (fun r => r < st_current_head s) (st_requests s).
Proof.
  intros Hdir Hfuel.
  set (n := length (filter (fun r => (st_current_head s <= r)%Z) (st_requests s))) in *.
  pose proof (sweep_up _ (scan_body_up total) n s (fuel - n) Hdir eq_refl) as Hrun.
  replace (n + (fuel - n))%nat with fuel in Hrun by lia. rewrite !Hrun. clear Hrun.
  set (up := sorted (filter (fun r => st_current_head s <= r) (st_requests s))).
  destruct (filter (fun r => r < st_current_head s) (st_requests s))
    as [|r0 rest] eqn:Hlow.
  { left. rewrite while_loop_exit by reflexivity. eauto. }
  right. set (s1 := set_requests (r0 :: rest) (visit_all up s)).
  exists (set_direction "left" (visit (total - 1) s1)).
  split; [|repeat split].
  destruct (fuel - n)%nat as [|k] eqn:Hk; [lia|].
  rewrite while_loop_step by reflexivity.
  replace (Datatypes.S k - 1)%nat with k by lia. f_equal.
  apply scan_body_turn_left.
  - unfold s1. rewrite visit_all_eq. exact Hdir.
  - apply filter_none. change (st_requests s1) with (r0 :: rest). rewrite <- Hlow.
    assert (st_current_head s <= st_current_head s1) as Hle.
    { unfold s1. rewrite visit_all_eq. state_fields.
      apply arrive_lower_bound, Forall_sorted, Forall_forall.
      intros r [Hr _]%list_elem_of_filter. exact Hr. }
    apply Forall_forall. intros r [Hr _]%list_elem_of_filter. lia.
Qed.

Lemma scan_down_then (total : Z) (s : State) (fuel : nat) :
  String.eqb (st_current_direction s) "right" = false ->
  (length (filter (fun r => (r <= st_current_head s)%Z) (st_requests s)) + 1 <= fuel)%nat ->
  is_Some (while_loop pending (scan_body total) fuel s)
  \/ exists s2,
       while_loop pending (scan_body total) fuel s
       = while_loop pending (scan_body total)
           (fuel - length (filter (fun r => (r <= st_current_head s)%Z) (st_requests s)) - 1)
           s2
       /\ st_current_head s2 = 0
       /\ String.eqb (st_current_direction s2) "right" = true
       /\ st_requests s2 = filter (fun r => st_current_head s < r) (st_requests s).
Proof.
  intros Hdir Hfuel.
  set (n := length (filter (fun r => (r <= st_current_head s)%Z) (st_requests s))) in *.
  pose proof (sweep_down _ (scan_body_down total) n s (fuel - n) Hdir eq_refl) as Hrun.
  replace (n + (fuel - n))%nat with fuel in Hrun by lia. rewrite !Hrun. clear Hrun.
  set (down := reverse (sorted (filter (fun r => r <= st_current_head s) (st_requests s)))).
  destruct (filter (fun r => st_current_head s < r) (st_requests s))
    as [|r0 rest] eqn:Hhigh.
  { left. rewrite while_loop_exit by reflexivity. eauto. }
  right. set (s1 := set_requests (r0 :: rest) (visit_all down s)).
  exists (set_direction "right" (visit 0 s1)).
  split; [|repeat split].
  destruct (fuel - n)%nat as [|k] eqn:Hk; [lia|].
  rewrite while_loop_step by reflexivity.
  replace (Datatypes.S k - 1)%nat with k by lia. f_equal.
  apply scan_body_turn_right.
  - unfold s1. rewrite visit_all_eq. exact Hdir.
  - apply filter_none. change (st_requests s1) with (r0 :: rest). rewrite <- Hhigh.
    assert (st_current_head s1 <= st_current_head s) as Hle.
    { unfold s1. rewrite visit_all_eq. state_fields.
      apply arrive_upper_bound, Forall_forall. intros r Hr.
      unfold down in Hr. rewrite elem_of_reverse, sorted_Permutation in Hr.
      apply list_elem_of_filter in Hr. tauto. }
    apply Forall_forall. intros r [Hr _]%list_elem_of_filter. lia.
Qed.

Lemma length_filter_le_gt (h : Z) (l : list Z) :
  (length (filter (fun r => (r <= h)%Z) l) + length (filter (fun r => (h < r)%Z) l))%nat
  = length l.
Proof. apply length_filter_split. intros; lia. Qed.

Lemma length_filter_ge_lt (h : Z) (l : list Z) :
  (length (filter (fun r => (h <= r)%Z) l) + length (filter (fun r => (r < h)%Z) l))%nat
  = length l.
Proof. apply length_filter_split. intros; lia. Qed.

(** From a head at or above 0 moving down, or at or below the upper
    boundary moving up, one turn is enough. *)
Lemma scan_returns_after_one_turn (total : Z) (s : State) (fuel : nat) :
  (String.eqb (st_current_direction s) "right" = false /\ 0 <= st_current_head s)
  \/ (String.eqb (st_current_direction s) "right" = true
      /\ st_current_head s <= total - 1) ->
  (length (st_requests s) + 1 <= fuel)%nat ->
  is_Some (while_loop pending (scan_body total) fuel s).
Proof.
  intros [[Hdir Hh]|[Hdir Hh]] Hfuel.
  - pose proof (length_filter_le_gt (st_current_head s) (st_requests s)) as Hlen.
    destruct (scan_down_then total s fuel Hdir) as [Hsome|(s2 & -> & Hh2 & Hd2 & Hq2)];
      [lia|exact Hsome|].
    rewrite (sweep_up_all _ (scan_body_up total) s2); [eauto|exact Hd2| |].
    + rewrite Hq2, Hh2. apply Forall_forall.
      intros r [Hr _]%list_elem_of_filter. lia.
    + rewrite Hq2. lia.
  - pose proof (length_filter_ge_lt (st_current_head s) (st_requests s)) as Hlen.
    destruct (scan_up_then total s fuel Hdir) as [Hsome|(s2 & -> & Hh2 & Hd2 & Hq2)];
      [lia|exact Hsome|].
    rewrite (sweep_down_all _ (scan_body_down total) s2); [eauto|exact Hd2| |].
    + rewrite Hq2, Hh2. apply Forall_forall.
      intros r [Hr _]%list_elem_of_filter. lia.
    + rewrite Hq2. lia.
Qed.

(** With at least one cylinder, two turns are enough from anywhere. *)
Lemma scan_returns (total : Z) (s : State) (fuel : nat) :
  1 <= total ->
  (length (st_requests s) + 2 <= fuel)%nat ->
  is_Some (while_loop pending (scan_body total) fuel s).
Proof.
  intros Ht Hfuel. destruct (String.eqb (st_current_direction s) "right") eqn:Hdir.
  - pose proof (length_filter_ge_lt (st_current_head s) (st_requests s)) as Hlen.
    destruct (scan_up_then total s fuel Hdir) as [Hsome|(s2 & -> & Hh2 & Hd2 & Hq2)];
      [lia|exact Hsome|].
    apply scan_returns_after_one_turn; [left; split; [exact Hd2|lia]|].
    rewrite Hq2. lia.
  - pose proof (length_filter_le_gt (st_current_head s) (st_requests s)) as Hlen.
    destruct (scan_down_then total s fuel Hdir) as [Hsome|(s2 & -> & Hh2 & Hd2 & Hq2)];
      [lia|exact Hsome|].
    apply scan_returns_after_one_turn; [right; split; [exact Hd2|lia]|].
    rewrite Hq2. lia.
Qed.

(** X7.  The loop of SCAN ends on every head position, request list and
    direction token as soon as the disk has at least one cylinder, within
    [len(requests) + 2] iterations, out-of-range values included: what one
    sweep cannot reach, the sweep after the next turn can.  Every request
    is then in the sequence, and the method goes on to its average and its
    return: it is never left running. *)
Theorem scan_loop_always_ends (d : Disk) (dir : string) (fuel : nat) :
  1 <= total_cylinders d ->
  (length (request_queue d) + 2 <= fuel)%nat ->
  (exists s, scan_schedule fuel d dir
             = conclude "SCAN" (Some dir) (request_queue d) s
             /\ request_queue d ⊆+ st_sequence s)
  /\ scan_schedule fuel d dir <> Running.
Proof.
  intros Ht Hfuel.
  destruct (scan_returns (total_cylinders d) (initial d dir) fuel Ht Hfuel)
    as [s Hs].
  rewrite (scan_schedule_ends _ _ _ _ Hs).
  split; [|apply conclude_not_Running].
  exists s. split; [reflexivity|].
  destruct (while_loop_invariant _ _ (covers (request_queue d)) _ _ _
              (fun s Hs _ => covers_scan_body _ _ s Hs) (covers_initial d dir) Hs)
    as [Hc Hp].
  apply (covers_exit _ _ Hc Hp).
Qed.

Lemma scan_loop_always_ends_witness :
  let d := mkDisk 10 500 [2000; 300; -5] in
  1 <= total_cylinders d /\ (length (request_queue d) + 2 <= 5)%nat
  /\ (exists r, scan_schedule 5 d "right" = Returns r
        /\ sequence r = [2000; 9; -5; 0; 300])
  /\ (exists s, scan_schedule 5 d "right"
                = conclude "SCAN" (Some "right") (request_queue d) s
                /\ request_queue d ⊆+ st_sequence s)
  /\ scan_schedule 5 d "right" <> Running.
Proof.
  split; [cbn; lia|]. split; [cbn; lia|].
  split; [eexists; split; [vm_compute; reflexivity|reflexivity]|].
  apply (scan_loop_always_ends (mkDisk 10 500 [2000; 300; -5]) "right" 5);
    cbn; lia.
Defined.

(** A loop whose condition an invariant keeps true never exits. *)
Lemma while_loop_never {S : Type} (I : S -> Prop) cond body :
  (forall s, I s -> cond s = true /\ I (body s)) ->
  forall fuel (s : S), I s -> while_loop cond body fuel s = None.
Proof.
  intros Hinv. induction fuel as [|n IH]; intros s Hs;
    destruct (Hinv s Hs) as [Hc Hb]; simpl; rewrite Hc; [reflexivity|].
  apply IH, Hb.
Qed.

Lemma elem_of_remove_first_ne (x y : Z) (l : list Z) :
  y ∈ l -> y <> x -> y ∈ remove_first x l.
Proof.
  induction l as [|z l IH]; intros Hy Hne; [exact Hy|]. simpl.
  destruct (Z.eqb_spec z x) as [->|Hzx].
  - apply elem_of_cons in Hy as [->|Hy]; [done|exact Hy].
  - apply elem_of_cons in Hy as [->|Hy];
      [apply list_elem_of_here|apply list_elem_of_further, IH; assumption].
Qed.

Lemma c_scan_right_starves (total : Z) (s : State) :
  String.eqb (st_current_direction s) "right" = true
  /\ 0 <= st_current_head s
  /\ (exists r, r ∈ st_requests s /\ r < 0) ->
  pending s = true
  /\ (String.eqb (st_current_direction (c_scan_body total s)) "right" = true
      /\ 0 <= st_current_head (c_scan_body total s)
      /\ (exists r, r ∈ st_requests (c_scan_body total s) /\ r < 0)).
Proof.
  intros (Hdir & Hh & r & Hr & Hneg). split.
  { apply pending_true. intros E. rewrite E in Hr. by apply elem_of_nil in Hr. }
  unfold c_scan_body. rewrite Hdir.
  destruct (py_min _) as [m|] eqn:Hm.
  - apply min_by_elem_of, list_elem_of_filter in Hm as [Hhm Hmq].
    split; [exact Hdir|]. split; [cbn; lia|].
    exists r. split; [|exact Hneg]. cbn. apply elem_of_remove_first_ne; [exact Hr|lia].
  - split; [exact Hdir|]. split; [cbn; lia|]. exists r. auto.
Qed.

Lemma c_scan_left_starves (total : Z) (s : State) :
  String.eqb (st_current_direction s) "right" = false
  /\ st_current_head s <= total - 1
  /\ (exists r, r ∈ st_requests s /\ total - 1 < r) ->
  pending s = true
  /\ (String.eqb (st_current_direction (c_scan_body total s)) "right" = false
      /\ st_current_head (c_scan_body total s) <= total - 1
      /\ (exists r, r ∈ st_requests (c_scan_body total s) /\ total - 1 < r)).
Proof.
  intros (Hdir & Hh & r & Hr & Hbig). split.
  { apply pending_true. intros E. rewrite E in Hr. by apply elem_of_nil in Hr. }
  unfold c_scan_body. rewrite Hdir.
  destruct (py_max _) as [m|] eqn:Hm.
  - apply py_max_elem_of, list_elem_of_filter in Hm as [Hhm Hmq].
    split; [exact Hdir|]. split; [cbn; lia|].
    exists r. split; [|exact Hbig]. cbn. apply elem_of_remove_first_ne; [exact Hr|lia].
  - split; [exact Hdir|]. split; [cbn; lia|]. exists r. auto.
Qed.

(** X8.  C-SCAN never returns when a request lies beyond the boundary it
    wraps to: sweeping toward ['right'] from a head at or above 0 with a
    request below 0, or sweeping the other way from a head at or below
    [total_cylinders - 1] with a request above it, the loop wraps for ever
    (no budget yields a result). *)
Theorem c_scan_loops_on_unreachable_request (d : Disk) (dir : string) (fuel : nat) :
  (String.eqb dir "right" = true /\ 0 <= current_head d
   /\ exists r, r ∈ request_queue d /\ r < 0)
  \/ (String.eqb dir "right" = false /\ current_head d <= total_cylinders d - 1
      /\ exists r, r ∈ request_queue d /\ total_cylinders d - 1 < r) ->
  c_scan_schedule fuel d dir = Running.
Proof.
  intros H. unfold c_scan_schedule.
  destruct H as [H|H].
  - rewrite (while_loop_never _ _ _ (c_scan_right_starves (total_cylinders d)) fuel
               (initial d dir) H). reflexivity.
  - rewrite (while_loop_never _ _ _ (c_scan_left_starves (total_cylinders d)) fuel
               (initial d dir) H). reflexivity.
Qed.

Lemma c_scan_loops_on_unreachable_request_witness :
  let d := mkDisk 200 50 [82; -1; 43] in
  ((String.eqb "right" "right" = true /\ 0 <= current_head d
    /\ exists r, r ∈ request_queue d /\ r < 0)
   \/ (String.eqb "right" "right" = false /\ current_head d <= total_cylinders d - 1
       /\ exists r, r ∈ request_queue d /\ total_cylinders d - 1 < r))
  /\ c_scan_schedule 1000 d "right" = Running.
Proof.
  assert (String.eqb "right" "right" = true /\ 0 <= 50
          /\ exists r, r ∈ [82; -1; 43] /\ r < 0) as H.
  { split; [reflexivity|]. split; [lia|]. exists (-1).
    split; [apply list_elem_of_further, list_elem_of_here|lia]. }
  split; [left; exact H|].
  apply (c_scan_loops_on_unreachable_request (mkDisk 200 50 [82; -1; 43]) "right" 1000).
  left. exact H.
Defined.

(* ===================================================================== *)
(** ** Closed forms of the sweeps on a valid disk                         *)
(* ===================================================================== *)

Lemma StronglySorted_sorted (l : list Z) : StronglySorted Z.le (sorted l).
Proof. apply Sorted_StronglySorted; [apply _|apply Sorted_sorted]. Qed.

Lemma StronglySorted_reverse_sorted (l : list Z) :
  StronglySorted (flip Z.le) (reverse (sorted l)).
Proof.
  apply Sorted_StronglySorted; [apply _|]. apply Sorted_reverse, Sorted_sorted.
Qed.

(** An ascending walk costs the distance to its end, and so does a
    descending one. *)
Lemma walk_ascending (l : list Z) : forall h,
  StronglySorted Z.le l -> Forall (fun r => h <= r) l ->
  sum (walk h l) = arrive h l - h.
Proof.
  induction l as [|x l IH]; intros h Hs Hh; [rewrite arrive_nil; cbn; lia|].
  apply StronglySorted_inv in Hs as [Hs Hx]. apply Forall_cons in Hh as [Hhx _].
  rewrite arrive_cons. change (sum (walk h (x :: l))) with (Z.abs (h - x) + sum (walk x l)).
  rewrite (IH x Hs Hx). lia.
Qed.

Lemma walk_descending (l : list Z) : forall h,
  StronglySorted (flip Z.le) l -> Forall (fun r => r <= h) l ->
  sum (walk h l) = h - arrive h l.
Proof.
  induction l as [|x l IH]; intros h Hs Hh; [rewrite arrive_nil; cbn; lia|].
  apply StronglySorted_inv in Hs as [Hs Hx]. apply Forall_cons in Hh as [Hhx _].
  rewrite arrive_cons. change (sum (walk h (x :: l))) with (Z.abs (h - x) + sum (walk x l)).
  rewrite (IH x Hs Hx). lia.
Qed.

Lemma Sorted_arrive_least (l : list Z) : forall h x,
  StronglySorted (flip Z.le) l -> x ∈ l -> arrive h l <= x.
Proof.
  induction l as [|y l IH]; intros h x Hs Hx; [by apply elem_of_nil in Hx|].
  apply StronglySorted_inv in Hs as [Hs Hy]. rewrite arrive_cons.
  apply elem_of_cons in Hx as [->|Hx]; [apply arrive_upper_bound, Hy|].
  apply IH; assumption.
Qed.

(** Where an ascending, respectively descending, pass over [l] ends. *)
Lemma arrive_sorted (a : Z) (l : list Z) :
  l <> [] ->
  arrive a (sorted l) ∈ l /\ forall y, y ∈ l -> y <= arrive a (sorted l).
Proof.
  intros Hl. split.
  - rewrite <- (sorted_Permutation l) at 2. apply arrive_elem_of.
    intros E. apply Hl, Permutation_nil_r. rewrite <- E. symmetry.
    apply sorted_Permutation.
  - intros y Hy. apply Sorted_arrive_greatest; [apply StronglySorted_sorted|].
    rewrite sorted_Permutation. exact Hy.
Qed.

Lemma arrive_reverse_sorted (a : Z) (l : list Z) :
  l <> [] ->
  arrive a (reverse (sorted l)) ∈ l
  /\ forall y, y ∈ l -> arrive a (reverse (sorted l)) <= y.
Proof.
  intros Hl. split.
  - rewrite <- (sorted_Permutation l) at 2.
    rewrite <- (reverse_Permutation (sorted l)) at 2. apply arrive_elem_of.
    intros E. apply Hl, Permutation_nil_r. rewrite <- E.
    rewrite reverse_Permutation. symmetry. apply sorted_Permutation.
  - intros y Hy. apply Sorted_arrive_least; [apply StronglySorted_reverse_sorted|].
    rewrite elem_of_reverse, sorted_Permutation. exact Hy.
Qed.

Lemma bottom_lower_bound (d : Disk) :
  bottom d <= current_head d /\ Forall (fun r => bottom d <= r) (request_queue d).
Proof.
  unfold bottom. induction (request_queue d) as [|x l [IH1 IH2]]; cbn [foldr].
  - split; [lia|constructor].
  - split; [lia|]. constructor; [lia|].
    eapply Forall_impl; [exact IH2|]. cbn beta. intros; lia.
Qed.

Lemma bottom_attained (d : Disk) : bottom d ∈ current_head d :: request_queue d.
Proof.
  unfold bottom. induction (request_queue d) as [|x l IH]; cbn [foldr].
  - apply list_elem_of_here.
  - destruct (Z.min_spec x (foldr Z.min (current_head d) l)) as [[_ ->]|[_ ->]].
    + apply list_elem_of_further, list_elem_of_here.
    + apply elem_of_cons in IH as [->|IH].
      * apply list_elem_of_here.
      * do 2 apply list_elem_of_further. exact IH.
Qed.

Lemma top_unique (d : Disk) (x : Z) :
  x ∈ current_head d :: request_queue d ->
  (forall y, y ∈ current_head d :: request_queue d -> y <= x) ->
  x = top d.
Proof.
  intros Hx Hmax. destruct (top_upper_bound d) as [Hh Hq].
  rewrite Forall_forall in Hq. apply Z.le_antisymm.
  - apply elem_of_cons in Hx as [->|Hx]; auto.
  - apply Hmax, top_attained.
Qed.

Lemma bottom_unique (d : Disk) (x : Z) :
  x ∈ current_head d :: request_queue d ->
  (forall y, y ∈ current_head d :: request_queue d -> x <= y) ->
  x = bottom d.
Proof.
  intros Hx Hmin. destruct (bottom_lower_bound d) as [Hh Hq].
  rewrite Forall_forall in Hq. apply Z.le_antisymm.
  - apply Hmin, bottom_attained.
  - apply elem_of_cons in Hx as [->|Hx]; auto.
Qed.

Section Extremes.

Variable d : Disk.
Variable dir : string.

Let h := current_head d.
Let q := request_queue d.

(** The downward first leg ends on the lowest cylinder. *)
Lemma arrive_outward_bottom :
  String.eqb dir "right" = false ->
  arrive h (reverse (sorted (ahead d dir))) = bottom d.
Proof.
  intros Hdir. unfold ahead. rewrite Hdir.
  destruct (filter (fun r => r <= current_head d) (request_queue d))
    as [|x l] eqn:Hd.
  - rewrite sorted_nil, reverse_nil, arrive_nil.
    apply bottom_unique; [apply list_elem_of_here|].
    intros y [->|Hy]%elem_of_cons; [reflexivity|].
    destruct (decide (y <= current_head d)) as [Hyh|Hyh]; [|unfold h; lia].
    assert (y ∈ filter (fun r => r <= current_head d) (request_queue d)) as Hyd
      by (apply list_elem_of_filter; auto).
    rewrite Hd in Hyd. by apply elem_of_nil in Hyd.
  - destruct (arrive_reverse_sorted h (x :: l)) as [Hin Hmin]; [done|].
    revert Hin Hmin. generalize (arrive h (reverse (sorted (x :: l)))).
    intros a Hin Hmin. rewrite <- Hd in Hin, Hmin.
    apply list_elem_of_filter in Hin as [Hah Haq].
    apply bottom_unique; [apply list_elem_of_further, Haq|].
    intros y [->|Hy]%elem_of_cons; [exact Hah|].
    destruct (decide (y <= current_head d)) as [Hyh|Hyh]; [|lia].
    apply Hmin, list_elem_of_filter. auto.
Qed.

(** Having reversed at the upper boundary, SCAN ends on the lowest
    cylinder; having reversed at cylinder 0, on the highest. *)
Lemma arrive_return_bottom (a : Z) :
  String.eqb dir "right" = true -> behind d dir <> [] ->
  arrive a (reverse (sorted (behind d dir))) = bottom d.
Proof.
  intros Hdir Hne. destruct (arrive_reverse_sorted a _ Hne) as [Hin Hmin].
  revert Hin Hmin. generalize (arrive a (reverse (sorted (behind d dir)))).
  unfold behind. rewrite Hdir. intros x [Hxh Hxq]%list_elem_of_filter Hmin.
  apply bottom_unique; [apply list_elem_of_further, Hxq|].
  intros y [->|Hy]%elem_of_cons; [lia|].
  destruct (decide (y < current_head d)); [|lia].
  apply Hmin, list_elem_of_filter. auto.
Qed.

Lemma arrive_return_top (a : Z) :
  String.eqb dir "right" = false -> behind d dir <> [] ->
  arrive a (sorted (behind d dir)) = top d.
Proof.
  intros Hdir Hne. destruct (arrive_sorted a _ Hne) as [Hin Hmax].
  revert Hin Hmax. generalize (arrive a (sorted (behind d dir))).
  unfold behind. rewrite Hdir. intros x [Hxh Hxq]%list_elem_of_filter Hmax.
  apply top_unique; [apply list_elem_of_further, Hxq|].
  intros y [->|Hy]%elem_of_cons; [lia|].
  destruct (decide (current_head d < y)); [|lia].
  apply Hmax, list_elem_of_filter. auto.
Qed.

End Extremes.

Lemma wraps_true d dir : wraps d dir = true -> behind d dir <> [].
Proof. unfold wraps. destruct (behind d dir); [discriminate|done]. Qed.

Section ValidClosedForms.

Variable d : Disk.
Hypothesis Hvalid : valid d.

Lemma valid_top : 0 <= top d <= total_cylinders d - 1.
Proof.
  pose proof (top_attained d) as [->|Hin]%elem_of_cons.
  - apply (valid_head d Hvalid).
  - apply (valid_request d Hvalid), Hin.
Qed.

Lemma valid_bottom : 0 <= bottom d <= total_cylinders d - 1.
Proof.
  pose proof (bottom_attained d) as [->|Hin]%elem_of_cons.
  - apply (valid_head d Hvalid).
  - apply (valid_request d Hvalid), Hin.
Qed.

Lemma sorted_ahead_right dir :
  String.eqb dir "right" = true ->
  Forall (fun r => current_head d <= r) (sorted (ahead d dir)).
Proof.
  intros Hdir. pose proof (outward_leg_right d dir Hdir) as H.
  unfold outward_leg in H. rewrite Hdir in H. exact H.
Qed.

Lemma sorted_ahead_left dir :
  String.eqb dir "right" = false ->
  Forall (fun r => r <= current_head d) (reverse (sorted (ahead d dir))).
Proof.
  intros Hdir. pose proof (outward_leg_left d dir Hdir) as H.
  unfold outward_leg in H. rewrite Hdir in H. exact H.
Qed.

Lemma behind_on_disk dir (l : list Z) :
  l ≡ₚ behind d dir -> Forall (fun r => 0 <= r <= total_cylinders d - 1) l.
Proof. intros ->. apply (behind_in_range d Hvalid dir). Qed.

Lemma arrive_outward_top_dir dir :
  String.eqb dir "right" = true ->
  arrive (current_head d) (sorted (ahead d dir)) = top d.
Proof. intros ->%String.eqb_eq. apply arrive_outward_top. Qed.

(** Where SCAN ends and what it costs. *)
Lemma scan_end_right dir :
  String.eqb dir "right" = true ->
  st_current_head (scan_end d dir) = (if wraps d dir then bottom d else top d)
  /\ st_total_movement (scan_end d dir)
     = (if wraps d dir
        then 2 * (total_cylinders d - 1) - current_head d - bottom d
        else top d - current_head d).
Proof.
  intros Hdir. pose proof valid_top as Htop.
  unfold scan_end, outward_leg, scan_return_leg, boundary. rewrite Hdir.
  destruct (wraps d dir) eqn:Hw; rewrite !visit_all_eq; state_fields.
  - rewrite (walk_ascending _ _ (StronglySorted_sorted _) (sorted_ahead_right dir Hdir)).
    rewrite (walk_descending _ _ (StronglySorted_reverse_sorted _)).
    + rewrite (arrive_outward_top_dir dir Hdir).
      rewrite (arrive_return_bottom d dir _ Hdir (wraps_true d dir Hw)). lia.
    + eapply Forall_impl;
        [apply (behind_on_disk dir); rewrite reverse_Permutation;
         apply sorted_Permutation|].
      cbn beta. intros; lia.
  - rewrite (walk_ascending _ _ (StronglySorted_sorted _) (sorted_ahead_right dir Hdir)).
    rewrite (arrive_outward_top_dir dir Hdir). lia.
Qed.

Lemma scan_end_left dir :
  String.eqb dir "right" = false ->
  st_current_head (scan_end d dir) = (if wraps d dir then top d else bottom d)
  /\ st_total_movement (scan_end d dir)
     = (if wraps d dir then current_head d + top d else current_head d - bottom d).
Proof.
  intros Hdir. pose proof valid_bottom as Hbot.
  unfold scan_end, outward_leg, scan_return_leg, boundary. rewrite Hdir.
  destruct (wraps d dir) eqn:Hw; rewrite !visit_all_eq; state_fields.
  - rewrite (walk_descending _ _ (StronglySorted_reverse_sorted _)
               (sorted_ahead_left dir Hdir)).
    rewrite (walk_ascending _ _ (StronglySorted_sorted _)).
    + rewrite (arrive_outward_bottom d dir Hdir).
      rewrite (arrive_return_top d dir _ Hdir (wraps_true d dir Hw)). lia.
    + eapply Forall_impl; [apply (behind_on_disk dir), sorted_Permutation|].
      cbn beta. intros; lia.
  - rewrite (walk_descending _ _ (StronglySorted_reverse_sorted _)
               (sorted_ahead_left dir Hdir)).
    rewrite (arrive_outward_bottom d dir Hdir). lia.
Qed.

(** Where C-SCAN ends and what it costs, in terms of where it ends. *)
Lemma c_scan_end_right dir :
  String.eqb dir "right" = true ->
  (if wraps d dir
   then st_current_head (c_scan_end d dir) ∈ behind d dir
        /\ (forall y, y ∈ behind d dir -> y <= st_current_head (c_scan_end d dir))
   else st_current_head (c_scan_end d dir) = top d)
  /\ st_total_movement (c_scan_end d dir)
     = (if wraps d dir
        then 2 * (total_cylinders d - 1) - current_head d
             + st_current_head (c_scan_end d dir)
        else st_current_head (c_scan_end d dir) - current_head d).
Proof.
  intros Hdir. pose proof valid_top as Htop.
  unfold c_scan_end, outward_leg, c_scan_second_leg, boundary. rewrite Hdir.
  destruct (wraps d dir) eqn:Hw; rewrite !visit_all_eq; state_fields.
  - split; [apply arrive_sorted, wraps_true, Hw|].
    rewrite (walk_ascending _ _ (StronglySorted_sorted _) (sorted_ahead_right dir Hdir)).
    rewrite (walk_ascending _ 0 (StronglySorted_sorted _)).
    + rewrite (arrive_outward_top_dir dir Hdir). lia.
    + eapply Forall_impl; [apply (behind_on_disk dir), sorted_Permutation|].
      cbn beta. intros; lia.
  - rewrite (walk_ascending _ _ (StronglySorted_sorted _) (sorted_ahead_right dir Hdir)).
    rewrite (arrive_outward_top_dir dir Hdir). split; [reflexivity|lia].
Qed.

Lemma c_scan_end_left dir :
  String.eqb dir "right" = false ->
  (if wraps d dir
   then st_current_head (c_scan_end d dir) ∈ behind d dir
        /\ (forall y, y ∈ behind d dir -> st_current_head (c_scan_end d dir) <= y)
   else st_current_head (c_scan_end d dir) = bottom d)
  /\ st_total_movement (c_scan_end d dir)
     = (if wraps d dir
        then current_head d + 2 * (total_cylinders d - 1)
             - st_current_head (c_scan_end d dir)
        else current_head d - st_current_head (c_scan_end d dir)).
Proof.
  intros Hdir. pose proof valid_bottom as Hbot.
  unfold c_scan_end, outward_leg, c_scan_second_leg, boundary. rewrite Hdir.
  destruct (wraps d dir) eqn:Hw; rewrite !visit_all_eq; state_fields.
  - split; [apply arrive_reverse_sorted, wraps_true, Hw|].
    rewrite (walk_descending _ _ (StronglySorted_reverse_sorted _)
               (sorted_ahead_left dir Hdir)).
    rewrite (walk_descending _ (total_cylinders d - 1)
               (StronglySorted_reverse_sorted _)).
    + rewrite (arrive_outward_bottom d dir Hdir). lia.
    + eapply Forall_impl;
        [apply (behind_on_disk dir); rewrite reverse_Permutation;
         apply sorted_Permutation|].
      cbn beta. intros; lia.
  - rewrite (walk_descending _ _ (StronglySorted_reverse_sorted _)
               (sorted_ahead_left dir Hdir)).
    rewrite (arrive_outward_bottom d dir Hdir). split; [reflexivity|lia].
Qed.

End ValidClosedForms.

(** X9.  On a valid disk SCAN's final position and total movement have a
    closed form.  Toward ['right']: with no request below the head it ends
    on the highest cylinder [top] among head and requests, having moved
    [top - head]; otherwise it ends on the lowest cylinder [bottom], having
    moved [2 * (total_cylinders - 1) - head - bottom].  In the other
    direction: it ends on [bottom] after [head - bottom], or, when some
    request lies above the head, on [top] after [head + top]. *)
Theorem scan_cost_closed_form (d : Disk) (dir : string) (fuel : nat) :
  valid d -> (length (request_queue d) + 1 <= fuel)%nat ->
  exists s, scan_schedule fuel d dir
              = conclude "SCAN" (Some dir) (request_queue d) s
    /\ if String.eqb dir "right" then
         st_current_head s = (if wraps d dir then bottom d else top d)
         /\ st_total_movement s
            = (if wraps d dir
               then 2 * (total_cylinders d - 1) - current_head d - bottom d
               else top d - current_head d)
       else
         st_current_head s = (if wraps d dir then top d else bottom d)
         /\ st_total_movement s
            = (if wraps d dir then current_head d + top d
               else current_head d - bottom d).
Proof.
  intros Hvalid Hfuel.
  exists (scan_end d dir). split; [apply scan_schedule_valid; assumption|].
  destruct (String.eqb dir "right") eqn:Hdir.
  - apply (scan_end_right d Hvalid dir Hdir).
  - apply (scan_end_left d Hvalid dir Hdir).
Qed.

Lemma scan_cost_closed_form_witness :
  let d := example_disk in
  valid d /\ (length (request_queue d) + 1 <= 8)%nat
  /\ exists s, scan_schedule 8 d "left"
              = conclude "SCAN" (Some "left") (request_queue d) s
    /\ if String.eqb "left" "right" then
         st_current_head s = (if wraps d "left" then bottom d else top d)
         /\ st_total_movement s
            = (if wraps d "left"
               then 2 * (total_cylinders d - 1) - current_head d - bottom d
               else top d - current_head d)
       else
         st_current_head s = (if wraps d "left" then top d else bottom d)
         /\ st_total_movement s
            = (if wraps d "left" then current_head d + top d
               else current_head d - bottom d).
Proof.
  split; [exact example_disk_valid|]. split; [simpl; lia|].
  apply (scan_cost_closed_form example_disk "left" 8);
    [exact example_disk_valid | simpl; lia].
Defined.

(** X10.  On a valid disk C-SCAN's total movement is determined by where
    it ends.  Toward ['right'] with no request below the head it ends on
    [top], having moved [top - head]; otherwise it ends on the greatest
    request below the head, having moved
    [2 * (total_cylinders - 1) - head + final_position].  The other
    direction mirrors this: it ends on [bottom] after [head - bottom], or
    on the least request above the head after
    [head + 2 * (total_cylinders - 1) - final_position]. *)
Theorem c_scan_cost_closed_form (d : Disk) (dir : string) (fuel : nat) :
  valid d -> (length (request_queue d) + 1 <= fuel)%nat ->
  exists s, c_scan_schedule fuel d dir
              = conclude "C-SCAN" (Some dir) (request_queue d) s
    /\ if String.eqb dir "right" then
         (if wraps d dir
          then st_current_head s ∈ behind d dir
               /\ (forall y, y ∈ behind d dir -> y <= st_current_head s)
          else st_current_head s = top d)
         /\ st_total_movement s
            = (if wraps d dir
               then 2 * (total_cylinders d - 1) - current_head d + st_current_head s
               else st_current_head s - current_head d)
       else
         (if wraps d dir
          then st_current_head s ∈ behind d dir
               /\ (forall y, y ∈ behind d dir -> st_current_head s <= y)
          else st_current_head s = bottom d)
         /\ st_total_movement s
            = (if wraps d dir
               then current_head d + 2 * (total_cylinders d - 1) - st_current_head s
               else current_head d - st_current_head s).
Proof.
  intros Hvalid Hfuel.
  exists (c_scan_end d dir). split; [apply c_scan_schedule_valid; assumption|].
  destruct (String.eqb dir "right") eqn:Hdir.
  - apply (c_scan_end_right d Hvalid dir Hdir).
  - apply (c_scan_end_left d Hvalid dir Hdir).
Qed.

Lemma c_scan_cost_closed_form_witness :
  let d := example_disk in
  valid d /\ (length (request_queue d) + 1 <= 8)%nat
  /\ exists s, c_scan_schedule 8 d "right"
              = conclude "C-SCAN" (Some "right") (request_queue d) s
    /\ if String.eqb "right" "right" then
         (if wraps d "right"
          then st_current_head s ∈ behind d "right"
               /\ (forall y, y ∈ behind d "right" -> y <= st_current_head s)
          else st_current_head s = top d)
         /\ st_total_movement s
            = (if wraps d "right"
               then 2 * (total_cylinders d - 1) - current_head d + st_current_head s
               else st_current_head s - current_head d)
       else
         (if wraps d "right"
          then st_current_head s ∈ behind d "right"
               /\ (forall y, y ∈ behind d "right" -> st_current_head s <= y)
          else st_current_head s = bottom d)
         /\ st_total_movement s
            = (if wraps d "right"
               then current_head d + 2 * (total_cylinders d - 1) - st_current_head s
               else current_head d - st_current_head s).
Proof.
  split; [exact example_disk_valid|]. split; [simpl; lia|].
  apply (c_scan_cost_closed_form example_disk "right" 8);
    [exact example_disk_valid | simpl; lia].
Defined.

(** Neither sweep costs more than twice the width of the disk. *)
Lemma sweep_totals_bounded (d : Disk) (dir : string) :
  valid d ->
  0 <= st_total_movement (scan_end d dir) <= 2 * (total_cylinders d - 1)
  /\ 0 <= st_total_movement (c_scan_end d dir) <= 2 * (total_cylinders d - 1).
Proof.
  intros Hvalid.
  pose proof (valid_top d Hvalid) as Htop.
  pose proof (valid_bottom d Hvalid) as Hbot.
  pose proof (valid_head d Hvalid) as Hh. unfold in_range in Hh.
  destruct (top_upper_bound d) as [Hht _].
  destruct (bottom_lower_bound d) as [Hbh _].
  destruct (String.eqb dir "right") eqn:Hdir.
  - destruct (scan_end_right d Hvalid dir Hdir) as [_ ->].
    destruct (c_scan_end_right d Hvalid dir Hdir) as [Hend ->].
    destruct (wraps d dir); [|destruct Hend; lia].
    destruct Hend as [Hin _]. unfold behind in Hin. rewrite Hdir in Hin.
    apply list_elem_of_filter in Hin as [Hlt Hq].
    apply (valid_request d Hvalid) in Hq. lia.
  - destruct (scan_end_left d Hvalid dir Hdir) as [_ ->].
    destruct (c_scan_end_left d Hvalid dir Hdir) as [Hend ->].
    destruct (wraps d dir); [|destruct Hend; lia].
    destruct Hend as [Hin _]. unfold behind in Hin. rewrite Hdir in Hin.
    apply list_elem_of_filter in Hin as [Hlt Hq].
    apply (valid_request d Hvalid) in Hq. lia.
Qed.

(** X11.  On a valid disk neither SCAN nor C-SCAN moves the head more than
    twice the width of the disk, [2 * (total_cylinders - 1)] cylinders, in
    either direction and however many requests there are: their loops end
    with such a total, which is the one in every result returned. *)
Theorem sweeps_cost_at_most_two_widths (d : Disk) (dir : string) (fuel : nat) :
  valid d -> (length (request_queue d) + 1 <= fuel)%nat ->
  exists s1 s2,
    scan_schedule fuel d dir = conclude "SCAN" (Some dir) (request_queue d) s1
    /\ c_scan_schedule fuel d dir
       = conclude "C-SCAN" (Some dir) (request_queue d) s2
    /\ 0 <= st_total_movement s1 <= 2 * (total_cylinders d - 1)
    /\ 0 <= st_total_movement s2 <= 2 * (total_cylinders d - 1).
Proof.
  intros Hvalid Hfuel.
  exists (scan_end d dir), (c_scan_end d dir).
  split; [apply scan_schedule_valid; assumption|].
  split; [apply c_scan_schedule_valid; assumption|].
  apply sweep_totals_bounded, Hvalid.
Qed.

Lemma sweeps_cost_at_most_two_widths_witness :
  let d := example_disk in
  valid d /\ (length (request_queue d) + 1 <= 8)%nat
  /\ exists s1 s2,
    scan_schedule 8 d "right"
    = conclude "SCAN" (Some "right") (request_queue d) s1
    /\ c_scan_schedule 8 d "right"
       = conclude "C-SCAN" (Some "right") (request_queue d) s2
    /\ 0 <= st_total_movement s1 <= 2 * (total_cylinders d - 1)
    /\ 0 <= st_total_movement s2 <= 2 * (total_cylinders d - 1).
Proof.
  split; [exact example_disk_valid|]. split; [simpl; lia|].
  apply (sweeps_cost_at_most_two_widths example_disk "right" 8);
    [exact example_disk_valid | simpl; lia].
Defined.

(** X12.  On a valid disk and a direction token other than ['right'], SCAN
    and the SCAN of the workload demo service the requests in the same
    order: those at or below the head descending, then those above it
    ascending; SCAN alone inserts the visit to cylinder 0 between the two
    when some request lies above the head.  Its total then exceeds the
    demo's by twice the lowest cylinder among head and requests; with no
    request above the head the totals are equal. *)
Theorem scan_left_against_workload_scan (d : Disk) (dir : string) (fuel : nat) :
  valid d -> dir <> "right" -> (length (request_queue d) + 1 <= fuel)%nat ->
  exists s, scan_schedule fuel d dir
              = conclude "SCAN" (Some dir) (request_queue d) s
    /\ snd (Workload.scan_schedule d dir)
       = reverse (sorted (ahead d dir)) ++ sorted (behind d dir)
    /\ st_sequence s
       = reverse (sorted (ahead d dir))
         ++ (if wraps d dir then [0] else [])
         ++ sorted (behind d dir)
    /\ st_total_movement s
       = fst (Workload.scan_schedule d dir)
         + (if wraps d dir then 2 * bottom d else 0).
Proof.
  intros Hvalid Hdir%String.eqb_neq Hfuel.
  exists (scan_end d dir). split; [apply scan_schedule_valid; assumption|].
  assert (Workload.scan_schedule d dir
          = (sum (walk (current_head d)
                   (reverse (sorted (ahead d dir)) ++ sorted (behind d dir))),
             reverse (sorted (ahead d dir)) ++ sorted (behind d dir)))
    as ->.
  { unfold Workload.scan_schedule, ahead, behind. rewrite Hdir.
    rewrite !filter_sorted, workload_fold. reflexivity. }
  cbn [fst snd]. split; [reflexivity|].
  split.
  { rewrite scan_end_sequence. unfold outward_leg, scan_return_leg, boundary.
    rewrite Hdir. destruct (wraps d dir) eqn:Hw; [reflexivity|].
    rewrite (wraps_false _ _ Hw). reflexivity. }
  destruct (scan_end_left d Hvalid dir Hdir) as [_ ->].
  rewrite walk_app, sum_app, (arrive_outward_bottom d dir Hdir).
  rewrite (walk_descending _ _ (StronglySorted_reverse_sorted _)
             (sorted_ahead_left d dir Hdir)).
  rewrite (arrive_outward_bottom d dir Hdir).
  destruct (wraps d dir) eqn:Hw.
  - rewrite (walk_ascending _ _ (StronglySorted_sorted _)).
    + rewrite (arrive_return_top d dir _ Hdir (wraps_true d dir Hw)). lia.
    + apply Forall_sorted. destruct (bottom_lower_bound d) as [_ Hq].
      rewrite Forall_forall in Hq. apply Forall_forall. intros y Hy.
      apply Hq. unfold behind in Hy. rewrite Hdir in Hy.
      apply list_elem_of_filter in Hy. tauto.
  - rewrite (wraps_false _ _ Hw), sorted_nil. cbn. lia.
Qed.

Lemma scan_left_against_workload_scan_witness :
  let d := example_disk in
  valid d /\ "left" <> "right" /\ (length (request_queue d) + 1 <= 8)%nat
  /\ exists s, scan_schedule 8 d "left"
              = conclude "SCAN" (Some "left") (request_queue d) s
    /\ snd (Workload.scan_schedule d "left")
       = reverse (sorted (ahead d "left")) ++ sorted (behind d "left")
    /\ st_sequence s
       = reverse (sorted (ahead d "left"))
         ++ (if wraps d "left" then [0] else [])
         ++ sorted (behind d "left")
    /\ st_total_movement s
       = fst (Workload.scan_schedule d "left")
         + (if wraps d "left" then 2 * bottom d else 0).
Proof.
  split; [exact example_disk_valid|]. split; [discriminate|]. split; [simpl; lia|].
  apply (scan_left_against_workload_scan example_disk "left" 8);
    [exact example_disk_valid | discriminate | simpl; lia].
Defined.

Lemma sorted_eq_nil (l : list Z) : sorted l = [] -> l = [].
Proof.
  intros E. apply Permutation_nil_r. rewrite <- E. symmetry. apply sorted_Permutation.
Qed.

(** X13.  On a valid disk and direction ['right'], C-SCAN and the C-SCAN of
    the workload demo service the requests in the same order: those at or
    above the head ascending, then those below it ascending; C-SCAN alone
    records the boundary visit between the two.  Both count the way to the
    boundary, but only C-SCAN counts the jump back: when some request lies
    below the head its total exceeds the demo's by [total_cylinders - 1],
    otherwise the totals are equal. *)
Theorem c_scan_against_workload_c_scan (d : Disk) (fuel : nat) :
  valid d -> (length (request_queue d) + 1 <= fuel)%nat ->
  exists s, c_scan_schedule fuel d "right"
              = conclude "C-SCAN" (Some "right") (request_queue d) s
    /\ snd (Workload.c_scan_schedule d "right")
       = sorted (ahead d "right") ++ sorted (behind d "right")
    /\ st_sequence s
       = sorted (ahead d "right")
         ++ (if wraps d "right" then [total_cylinders d - 1] else [])
         ++ sorted (behind d "right")
    /\ st_total_movement s
       = fst (Workload.c_scan_schedule d "right")
         + (if wraps d "right" then total_cylinders d - 1 else 0).
Proof.
  intros Hvalid Hfuel.
  exists (c_scan_end d "right").
  split; [apply c_scan_schedule_valid; assumption|].
  assert (Workload.c_scan_schedule d "right"
          = (st_total_movement (c_scan_end d "right")
             - (if wraps d "right" then total_cylinders d - 1 else 0),
             sorted (ahead d "right") ++ sorted (behind d "right"))) as ->.
  { unfold Workload.c_scan_schedule, c_scan_end, outward_leg, c_scan_second_leg,
      boundary, wraps, ahead, behind.
    cbn [String.eqb Ascii.eqb Bool.eqb].
    rewrite !filter_sorted, workload_fold.
    destruct (filter (fun r => r < current_head d) (request_queue d))
      as [|x l] eqn:Hlow.
    - rewrite sorted_nil, visit_all_eq. state_fields.
      rewrite app_nil_r. f_equal. lia.
    - destruct (sorted (x :: l)) as [|y k] eqn:Hs;
        [apply sorted_eq_nil in Hs; discriminate|].
      rewrite workload_fold, !visit_all_eq. state_fields. f_equal. lia. }
  cbn [fst snd]. split; [reflexivity|].
  split; [|lia].
  rewrite c_scan_end_sequence. unfold outward_leg, c_scan_second_leg, boundary.
  cbn [String.eqb Ascii.eqb Bool.eqb].
  destruct (wraps d "right") eqn:Hw; [reflexivity|].
  rewrite (wraps_false _ _ Hw). reflexivity.
Qed.

Lemma c_scan_against_workload_c_scan_witness :
  let d := example_disk in
  valid d /\ (length (request_queue d) + 1 <= 8)%nat
  /\ exists s, c_scan_schedule 8 d "right"
              = conclude "C-SCAN" (Some "right") (request_queue d) s
    /\ snd (Workload.c_scan_schedule d "right")
       = sorted (ahead d "right") ++ sorted (behind d "right")
    /\ st_sequence s
       = sorted (ahead d "right")
         ++ (if wraps d "right" then [total_cylinders d - 1] else [])
         ++ sorted (behind d "right")
    /\ st_total_movement s
       = fst (Workload.c_scan_schedule d "right")
         + (if wraps d "right" then total_cylinders d - 1 else 0).
Proof.
  split; [exact example_disk_valid|]. split; [simpl; lia|].
  apply (c_scan_against_workload_c_scan example_disk 8);
    [exact example_disk_valid | simpl; lia].
Defined.

(* ===================================================================== *)
(** ** The disk picture                                                   *)
(* ===================================================================== *)

Lemma elem_of_py_range (stop step i : Z) :
  0 < step ->
  i ∈ py_range stop step <-> exists k, 0 <= k /\ step * k < stop /\ i = step * k.
Proof.
  intros Hstep. unfold py_range. rewrite list_elem_of_fmap.
  assert (forall k, k < (stop + step - 1) / step <-> step * k < stop) as Hk.
  { intros k. split; intros H.
    - pose proof (Z.mul_div_le (stop + step - 1) step Hstep). nia.
    - enough (k + 1 <= (stop + step - 1) / step) by lia.
      apply Z.div_le_lower_bound; [exact Hstep|]. nia. }
  split.
  - intros (k & -> & Hin). apply elem_of_seqZ in Hin. exists k.
    split; [lia|]. split; [apply Hk; lia|reflexivity].
  - intros (k & Hk0 & Hlt & ->). exists k. split; [reflexivity|].
    apply elem_of_seqZ. split; [lia|]. apply Hk in Hlt. lia.
Qed.

Lemma NoDup_py_range (stop step : Z) : 0 < step -> NoDup (py_range stop step).
Proof.
  intros Hstep. unfold py_range. apply NoDup_fmap_2_strong; [|apply NoDup_seqZ].
  intros x y _ _ Hxy. nia.
Qed.

Lemma marked_rows (b : Z -> bool) (l : list Z) :
  filter (fun row : Z * bool => row.2 = true) ((fun i => (i, b i)) <$> l)
  = (fun i => (i, true)) <$> filter (fun i => b i = true) l.
Proof.
  induction l as [|i l IH]; [reflexivity|].
  rewrite fmap_cons, !filter_cons, IH. cbn [snd].
  destruct (decide (b i = true)) as [E|E]; [rewrite E|]; reflexivity.
Qed.

Lemma filter_only (P : Z -> Prop) `{!forall x, Decision (P x)} (l : list Z) (x : Z) :
  NoDup l -> x ∈ l -> P x -> (forall y, y ∈ l -> P y -> y = x) -> filter P l = [x].
Proof.
  induction l as [|z l IH]; intros Hnd Hx HP Huniq; [by apply elem_of_nil in Hx|].
  apply NoDup_cons in Hnd as [Hz Hnd]. rewrite filter_cons.
  destruct (decide (z = x)) as [->|Hne].
  - rewrite decide_True by exact HP. f_equal. apply filter_none, Forall_forall.
    intros y Hy HPy. assert (y = x) as -> by (apply Huniq; [right|]; assumption).
    contradiction.
  - apply elem_of_cons in Hx as [->|Hx]; [done|].
    rewrite decide_False.
    + apply IH; auto. intros y Hy. apply Huniq. right. exact Hy.
    + intros HPz. apply Hne, Huniq; [left|exact HPz].
Qed.

(** X14.  For a head on the disk, [visualize_disk] of
    [src/disksimulation.py] puts the head marker on exactly one row: the
    row of the 25-cylinder band that contains the head. *)
Theorem visualize_disk_marks_one_row (d : Disk) :
  0 <= current_head d < total_cylinders d ->
  filter (fun row : Z * bool => row.2 = true) (visualize_disk d)
  = [(25 * (current_head d / 25), true)].
Proof.
  intros Hh. unfold visualize_disk. rewrite marked_rows.
  pose proof (Z.div_mod (current_head d) 25 ltac:(lia)) as Hdiv.
  pose proof (Z.mod_pos_bound (current_head d) 25 ltac:(lia)) as Hmod.
  rewrite (filter_only _ _ (25 * (current_head d / 25))); [reflexivity| | | |].
  - apply NoDup_py_range. lia.
  - apply elem_of_py_range; [lia|]. exists (current_head d / 25).
    split; [apply Z.div_pos; lia|]. split; [lia|reflexivity].
  - apply bool_decide_eq_true. lia.
  - intros y (k & _ & _ & ->)%elem_of_py_range Hy; [|lia].
    apply bool_decide_eq_true in Hy. f_equal. lia.
Qed.

Lemma visualize_disk_marks_one_row_witness :
  let d := mkDisk 200 53 [] in
  0 <= current_head d < total_cylinders d
  /\ filter (fun row : Z * bool => row.2 = true) (visualize_disk d)
     = [(25 * (current_head d / 25), true)].
Proof.
  split; [cbn; lia|].
  apply (visualize_disk_marks_one_row (mkDisk 200 53 [])). cbn. lia.
Defined.

(** X15.  [visualize_disk] of [src/disk_model.py] marks a row only when
    the head is itself the first cylinder of a row: a head on the disk at
    a multiple of 25 marks its own row, any other head marks no row. *)
Theorem disk_model_marks_aligned_head_only (d : Disk) :
  filter (fun row : Z * bool => row.2 = true) (DiskModel.visualize_disk d)
  = if bool_decide (0 <= current_head d < total_cylinders d
                    /\ current_head d mod 25 = 0)
    then [(current_head d, true)] else [].
Proof.
  unfold DiskModel.visualize_disk. rewrite marked_rows.
  pose proof (Z.div_mod (current_head d) 25 ltac:(lia)) as Hdiv.
  destruct (bool_decide _) eqn:Hb.
  - apply bool_decide_eq_true in Hb as [Hh Hmod].
    rewrite (filter_only _ _ (current_head d)); [reflexivity| | | |].
    + apply NoDup_py_range. lia.
    + apply elem_of_py_range; [lia|]. exists (current_head d / 25).
      split; [apply Z.div_pos; lia|]. lia.
    + apply bool_decide_eq_true. reflexivity.
    + intros y _ Hy. apply bool_decide_eq_true in Hy. exact Hy.
  - apply bool_decide_eq_false in Hb. rewrite filter_none; [reflexivity|].
    apply Forall_forall. intros y (k & Hk & Hlt & ->)%elem_of_py_range Hy; [|lia].
    apply bool_decide_eq_true in Hy. apply Hb. rewrite <- Hy.
    split; [lia|]. rewrite Z.mul_comm. apply Z.mod_mul. lia.
Qed.

(* ===================================================================== *)
(** ** The comparison table                                               *)
(* ===================================================================== *)

Lemma min_with_split {A : Type} (key : A -> Z) (l : list A) (m : A) :
  min_with key l = Some m ->
  exists l1 l2, l = l1 ++ m :: l2
    /\ Forall (fun y => key m < key y) l1
    /\ Forall (fun y => key m <= key y) l2.
Proof.
  destruct l as [|x xs]; [discriminate|]. simpl. intros [= <-].
  induction xs as [|y ys IH] using rev_ind.
  - exists [], []. simpl. auto.
  - rewrite fold_left_app. simpl.
    destruct IH as (l1 & l2 & Heq & H1 & H2).
    set (b := fold_left _ ys x) in *.
    destruct (Z.ltb_spec (key y) (key b)) as [Hlt|Hge].
    + exists (x :: ys), []. split; [reflexivity|]. split; [|constructor].
      rewrite Heq. apply Forall_app. split.
      * eapply Forall_impl; [exact H1|]. simpl. intros; lia.
      * constructor; [lia|]. eapply Forall_impl; [exact H2|]. simpl. intros; lia.
    + exists l1, (l2 ++ [y]). split.
      * rewrite app_comm_cons, Heq, <- app_assoc. reflexivity.
      * split; [exact H1|]. apply Forall_app. split; [exact H2|]. auto.
Qed.

Lemma table_rows_zero (m : Z) (l : list (string * ScheduleResult)) :
  Exists (fun item => total_movement item.2 = 0) l ->
  table_rows m l = inl ZeroDivisionError.
Proof.
  induction l as [|[name r] l IH]; intros Hex; [by apply Exists_nil in Hex|].
  cbn [table_rows]. unfold efficiency.
  destruct (Z.eqb_spec (total_movement r) 0) as [E|E]; [reflexivity|].
  apply Exists_cons in Hex as [Hex|Hex]; [done|]. rewrite (IH Hex). reflexivity.
Qed.

Lemma table_rows_nonzero (m : Z) (l : list (string * ScheduleResult)) :
  Forall (fun item => total_movement item.2 <> 0) l ->
  exists rows, table_rows m l = inr rows
    /\ (fun row : string * Z * Q * Z * Q =>
          let '(name, total, average, final, _) := row in (name, total, average, final))
         <$> rows
       = (fun item : string * ScheduleResult =>
            (item.1, total_movement item.2, average_seek item.2,
             final_position item.2)) <$> l.
Proof.
  induction 1 as [|[name r] l Hr _ (rows & Hrows & Hmap)]; [exists []; auto|].
  cbn [table_rows]. unfold efficiency.
  destruct (Z.eqb_spec (total_movement r) 0) as [E|E]; [done|].
  rewrite Hrows. eexists. split; [reflexivity|].
  rewrite fmap_cons, Hmap. reflexivity.
Qed.

Lemma table_rows_cases (m : Z) (l : list (string * ScheduleResult)) :
  (Exists (fun item => total_movement item.2 = 0) l
   /\ table_rows m l = inl ZeroDivisionError)
  \/ (Forall (fun item => total_movement item.2 <> 0) l
      /\ exists rows, table_rows m l = inr rows).
Proof.
  destruct (decide (Exists (fun item : string * ScheduleResult =>
                              total_movement item.2 = 0) l)) as [Hex|Hnex].
  - left. split; [exact Hex|apply table_rows_zero, Hex].
  - right. apply not_Exists_Forall in Hnex; [|intros x; apply _].
    split; [exact Hnex|].
    destruct (table_rows_nonzero m l Hnex) as (rows & -> & _). eauto.
Qed.

(** X16.  [display_comprehensive_comparison] raises before printing
    anything in exactly two cases: [ValueError] on an empty dictionary of
    results, and [ZeroDivisionError] on a non-empty one in which some
    algorithm has total movement 0. *)
Theorem comparison_raises (results : list (string * ScheduleResult)) :
  (display_comprehensive_comparison results = inl ValueError <-> results = [])
  /\ (display_comprehensive_comparison results = inl ZeroDivisionError
      <-> results <> []
          /\ Exists (fun item => total_movement item.2 = 0) results).
Proof.
  unfold display_comprehensive_comparison.
  destruct results as [|item rest].
  { cbn. split; split; try done. intros [H _]. done. }
  set (l := item :: rest).
  destruct (py_min _) as [m|] eqn:Hmin; [|discriminate].
  destruct (min_with _ l) as [best|] eqn:Hbest; [|discriminate].
  destruct (table_rows_cases m l) as [[Hex ->]|[Hall (rows & ->)]].
  - split; split; try done; auto.
  - split; split; try done. intros [_ Hex].
    apply Exists_exists in Hex as (x & Hx & Hzero).
    rewrite Forall_forall in Hall. exfalso. apply (Hall x); [exact Hx|exact Hzero].
Qed.

(** X17.  When [display_comprehensive_comparison] returns, its table has
    one row per algorithm, in the order of the dictionary, carrying the
    algorithm's name, total movement, average seek and final position;
    and the algorithm it recommends has the least total movement, the
    earliest in the dictionary among those that tie. *)
Theorem comparison_recommends_least (results : list (string * ScheduleResult))
    (rows : list (string * Z * Q * Z * Q)) (best : string * ScheduleResult) :
  display_comprehensive_comparison results = inr (rows, best) ->
  (exists before after,
     results = before ++ best :: after
     /\ Forall (fun item => total_movement best.2 < total_movement item.2) before
     /\ Forall (fun item => total_movement best.2 <= total_movement item.2) after)
  /\ (fun row : string * Z * Q * Z * Q =>
        let '(name, total, average, final, _) := row in (name, total, average, final))
       <$> rows
     = (fun item : string * ScheduleResult =>
          (item.1, total_movement item.2, average_seek item.2,
           final_position item.2)) <$> results.
Proof.
  unfold display_comprehensive_comparison.
  destruct (py_min _) as [m|] eqn:Hmin; [|discriminate].
  destruct (table_rows m results) as [e|rows'] eqn:Hrows; [discriminate|].
  destruct (min_with _ results) as [best'|] eqn:Hbest; [|discriminate].
  intros [= <- <-]. split; [apply (min_with_split _ _ _ Hbest)|].
  destruct (table_rows_cases m results) as [[_ E]|[Hall _]]; [congruence|].
  destruct (table_rows_nonzero m results Hall) as (rows2 & E & Hmap).
  rewrite Hrows in E. injection E as <-. exact Hmap.
Qed.

Lemma comparison_recommends_least_witness :
  let a := mkResult "FCFS" 30 (30 # 2) [40; 60] [10; 20] 60 None in
  let b := mkResult "SSTF" 30 (30 # 2) [60; 40] [10; 20] 40 None in
  let results := [("FCFS", a); ("SSTF", b)] in
  let rows := [("FCFS", 30, (30 # 2)%Q, 60, (inject_Z 30 / inject_Z 30 * 100)%Q);
               ("SSTF", 30, (30 # 2)%Q, 40, (inject_Z 30 / inject_Z 30 * 100)%Q)] in
  display_comprehensive_comparison results = inr (rows, ("FCFS", a))
  /\ (exists before after,
        results = before ++ ("FCFS", a) :: after
        /\ Forall (fun item => total_movement a < total_movement item.2) before
        /\ Forall (fun item => total_movement a <= total_movement item.2) after)
  /\ (fun row : string * Z * Q * Z * Q =>
        let '(name, total, average, final, _) := row in (name, total, average, final))
       <$> rows
     = (fun item : string * ScheduleResult =>
          (item.1, total_movement item.2, average_seek item.2,
           final_position item.2)) <$> results.
Proof.
  split; [reflexivity|].
  apply (comparison_recommends_least
           [("FCFS", mkResult "FCFS" 30 (30 # 2) [40; 60] [10; 20] 60 None);
            ("SSTF", mkResult "SSTF" 30 (30 # 2) [60; 40] [10; 20] 40 None)]).
  reflexivity.
Defined.

Lemma walk_stationary (h : Z) (l : list Z) :
  Forall (fun r => r = h) l -> sum (walk h l) = 0.
Proof.
  induction 1 as [|x l -> _ IH]; [reflexivity|].
  change (sum (walk h (h :: l))) with (Z.abs (h - h) + sum (walk h l)).
  rewrite IH. lia.
Qed.

(** No movement, no overflow: the average of a zero total is 0. *)
Lemma average_zero (q : list Z) : average 0 q = Some 0%Q.
Proof. destruct q; reflexivity. Qed.

Lemma conclude_zero name dir q s :
  st_total_movement s = 0 ->
  conclude name dir q s = Returns (result_of name dir 0%Q s).
Proof. intros H. unfold conclude. rewrite H, average_zero. reflexivity. Qed.

(** X18.  The main program's pipeline fails on a queue that never moves
    the head: when every request is the start cylinder itself (an empty
    queue included), the four algorithms all return, within
    [len(requests)] iterations of their loops and each with total movement
    0, and the comparison table then raises [ZeroDivisionError]. *)
Theorem comparison_fails_without_movement (d : Disk) (fuel : nat) :
  Forall (fun r => r = current_head d) (request_queue d) ->
  (length (request_queue d) <= fuel)%nat ->
  exists results,
    all_results fuel d = Some results
    /\ (fun item : string * ScheduleResult => (item.1, total_movement item.2))
         <$> results
       = [("FCFS", 0); ("SSTF", 0); ("SCAN", 0); ("C-SCAN", 0)]
    /\ display_comprehensive_comparison results = inl ZeroDivisionError.
Proof.
  intros Hq Hfuel.
  assert (Forall (fun r => current_head d <= r) (request_queue d)) as Hup.
  { eapply Forall_impl; [exact Hq|]. cbn beta. intros; lia. }
  assert (exists s, fcfs_schedule d = Returns (result_of "FCFS" None 0%Q s)
                    /\ st_total_movement s = 0) as (s0 & E0 & T0).
  { eexists. split; [apply conclude_zero|]; rewrite visit_all_eq; state_fields;
      rewrite (walk_stationary _ _ Hq); reflexivity. }
  assert (exists s, sstf_schedule fuel d = Returns (result_of "SSTF" None 0%Q s)
                    /\ st_total_movement s = 0) as (s1 & E1 & T1).
  { destruct (sstf_loop_order fuel (initial d ""))
      as (s1 & tail & Hrun & Hseq & Hord); [exact Hfuel|].
    assert (st_total_movement s1 = 0) as T1.
    { destruct (sstf_loop_tallied _ _ _ Hrun) as (Hm & Ht & _).
      rewrite Ht, Hm, Hseq. apply walk_stationary.
      apply sstf_order_Permutation in Hord. state_fields.
      rewrite app_nil_l, Hord. exact Hq. }
    exists s1. split; [|exact T1].
    rewrite (sstf_schedule_ends _ _ _ Hrun). apply conclude_zero, T1. }
  assert (exists s, scan_schedule fuel d "right"
                    = Returns (result_of "SCAN" (Some "right") 0%Q s)
                    /\ st_total_movement s = 0) as (s2 & E2 & T2).
  { eexists. split.
    - rewrite (scan_schedule_ends _ _ _ _
                 (sweep_up_all _ (scan_body_up (total_cylinders d))
                    (initial d "right") fuel eq_refl Hup Hfuel)).
      apply conclude_zero. rewrite visit_all_eq. state_fields.
      rewrite (walk_stationary _ _ (Forall_sorted _ _ Hq)). reflexivity.
    - rewrite visit_all_eq. state_fields.
      rewrite (walk_stationary _ _ (Forall_sorted _ _ Hq)). reflexivity. }
  assert (exists s, c_scan_schedule fuel d "right"
                    = Returns (result_of "C-SCAN" (Some "right") 0%Q s)
                    /\ st_total_movement s = 0) as (s3 & E3 & T3).
  { eexists. split.
    - rewrite (c_scan_schedule_ends _ _ _ _
                 (sweep_up_all _ (c_scan_body_up (total_cylinders d))
                    (initial d "right") fuel eq_refl Hup Hfuel)).
      apply conclude_zero. rewrite visit_all_eq. state_fields.
      rewrite (walk_stationary _ _ (Forall_sorted _ _ Hq)). reflexivity.
    - rewrite visit_all_eq. state_fields.
      rewrite (walk_stationary _ _ (Forall_sorted _ _ Hq)). reflexivity. }
  unfold all_results. rewrite E0, E1, E2, E3.
  eexists. split; [reflexivity|]. split.
  - cbn. rewrite T0, T1, T2, T3. reflexivity.
  - unfold display_comprehensive_comparison.
    destruct (py_min _) as [m|] eqn:Hmin; [|discriminate].
    rewrite table_rows_zero; [reflexivity|].
    apply Exists_cons_hd. exact T0.
Qed.

Lemma comparison_fails_without_movement_witness :
  let d := mkDisk 200 50 [50; 50] in
  Forall (fun r => r = current_head d) (request_queue d)
  /\ (length (request_queue d) <= 2)%nat
  /\ exists results,
       all_results 2 d = Some results
       /\ (fun item : string * ScheduleResult => (item.1, total_movement item.2))
            <$> results
          = [("FCFS", 0); ("SSTF", 0); ("SCAN", 0); ("C-SCAN", 0)]
       /\ display_comprehensive_comparison results = inl ZeroDivisionError.
Proof.
  assert (Forall (fun r => r = 50) [50; 50]) as H by (repeat constructor).
  split; [exact H|]. split; [simpl; lia|].
  apply (comparison_fails_without_movement (mkDisk 200 50 [50; 50]) 2);
    [exact H|simpl; lia].
Defined.

(* ===================================================================== *)
(** ** Service order and resting place                                    *)
(* ===================================================================== *)



Lemma c_scan_body_rests h0 total s :
  pending s = true ->
  (pending s = false -> st_current_head s = arrive h0 (st_sequence s)) ->
  pending (c_scan_body total s) = false ->
  st_current_head (c_scan_body total s) = arrive h0 (st_sequence (c_scan_body total s)).
Proof.
  intros Hp _. destruct (c_scan_body_cases total s)
    as [(m & _ & ->)|(b & h' & _ & _ & ->)].
  - intros _. unfold serve. state_fields. rewrite arrive_snoc. reflexivity.
  - intros Hp'. change (pending s = false) in Hp'. congruence.
Qed.

(** X20.  Whatever the input, a returned result's final position is the
    last entry of its sequence, or the start head when the sequence is
    empty, for each of the four algorithms; in particular C-SCAN never
    returns resting on the boundary it jumped to. *)
Theorem final_position_is_last_visit (d : Disk) (dir : string) (fuel : nat)
    (r : ScheduleResult) :
  fcfs_schedule d = Returns r
  \/ sstf_schedule fuel d = Returns r
  \/ scan_schedule fuel d dir = Returns r
  \/ c_scan_schedule fuel d dir = Returns r ->
  final_position r = arrive (current_head d) (sequence r).
Proof.
  intros [Hr|[Hr|[Hr|Hr]]].
  - apply conclude_Returns in Hr as (_ & _ & -> & _ & -> & _).
    rewrite visit_all_eq. reflexivity.
  - apply (sstf_schedule_tallied fuel d r Hr).
  - apply (scan_schedule_tallied fuel d dir r Hr).
  - apply c_scan_schedule_Returns in Hr as (s & Hs & Hr).
    apply conclude_Returns in Hr as (_ & _ & -> & _ & -> & _).
    destruct (while_loop_invariant pending (c_scan_body (total_cylinders d))
                (fun s => pending s = false ->
                          st_current_head s = arrive (current_head d) (st_sequence s))
                fuel (initial d dir) s
                (fun s Hs Hp => c_scan_body_rests _ _ s Hp Hs)
                (fun _ => eq_refl) Hs) as [Hrest Hp].
    apply Hrest, Hp.
Qed.

Lemma final_position_is_last_visit_witness :
  let r := mkResult "C-SCAN" 391 (Qmake 7861193992419035 (2 ^ 47))
             [82; 140; 170; 190; 199; 16; 24; 43]
             [32; 58; 30; 20; 9; 16; 8; 19] 43 (Some "right") in
  (fcfs_schedule example_disk = Returns r
   \/ sstf_schedule 8 example_disk = Returns r
   \/ scan_schedule 8 example_disk "right" = Returns r
   \/ c_scan_schedule 8 example_disk "right" = Returns r)
  /\ final_position r = arrive (current_head example_disk) (sequence r).
Proof.
  split; [do 3 right; exact c_scan_example_run|].
  apply (final_position_is_last_visit example_disk "right" 8).
  do 3 right. exact c_scan_example_run.
Defined.

(* ===================================================================== *)
(** ** The average seek and the float range                               *)
(* ===================================================================== *)

Lemma round_half_even_le (n dn : Z) : round_half_even n dn <= n / dn + 1.
Proof.
  unfold round_half_even.
  destruct (_ <? _); [lia|]. destruct (_ <? _); [lia|]. destruct (Z.even _); lia.
Qed.

Lemma quotient_exponent_le (a b : Z) :
  quotient_exponent a b <= Z.log2 a - Z.log2 b.
Proof. unfold quotient_exponent. destruct (_ <=? _); lia. Qed.

(** A quotient below [2 ** 1023] is within the float range. *)
Lemma true_divide_in_range (a b : Z) :
  0 < b -> Z.abs a < 2 ^ 1023 * b -> is_Some (true_divide a b).
Proof.
  intros Hb Ha. unfold true_divide. destruct (Z.eqb_spec a 0) as [|Hne]; [eauto|].
  generalize dependent (Z.sgn a). intros sg.
  assert (0 < Z.abs a) as Hpos by lia.
  generalize dependent (Z.abs a). clear a Hne. intros A Ha Hpos.
  set (e := quotient_exponent A b). set (p := Z.max (e - 52) (-1074)).
  cbv zeta.
  assert (e <= 1023) as He.
  { pose proof (quotient_exponent_le A b) as Hk. fold e in Hk.
    pose proof (Z.log2_nonneg b) as Hl.
    destruct (Z.log2_spec b Hb) as [_ Hb2].
    assert (A < 2 ^ (1024 + Z.log2 b)) as HA.
    { replace (1024 + Z.log2 b) with (1023 + Z.succ (Z.log2 b)) by lia.
      rewrite Z.pow_add_r by lia.
      assert (0 < 2 ^ 1023) by (apply Z.pow_pos_nonneg; lia). nia. }
    apply Z.log2_lt_pow2 in HA; lia. }
  destruct (Z.leb_spec (2 ^ 1024) (round_half_even (scale A (- p)) (scale b p) * 2 ^ p))
    as [Hov|_]; [exfalso|eauto].
  destruct (Z.lt_ge_cases p 0) as [Hp|Hp].
  - rewrite (Z.pow_neg_r 2 p Hp), Z.mul_0_r in Hov.
    assert (0 < 2 ^ 1024) by (apply Z.pow_pos_nonneg; lia). lia.
  - pose proof (round_half_even_le (scale A (- p)) (scale b p)) as Hm.
    unfold scale in Hm, Hov.
    rewrite (Z.max_l 0 (- p)), (Z.max_r 0 p), Z.pow_0_r, Z.mul_1_r in Hm, Hov by lia.
    assert (p <= 971) as Hp2 by lia.
    assert (0 < 2 ^ p) as HP by (apply Z.pow_pos_nonneg; lia).
    assert (2 ^ p <= 2 ^ 971) as HP2 by (apply Z.pow_le_mono_r; lia).
    assert (A / (b * 2 ^ p) * 2 ^ p <= A / b) as Hq.
    { apply Z.div_le_lower_bound; [lia|].
      pose proof (Z.mul_div_le A (b * 2 ^ p)) as Hd. nia. }
    assert (A / b < 2 ^ 1023) as Hab by (apply Z.div_lt_upper_bound; lia).
    assert (2 ^ 1024 = 2 * 2 ^ 1023) as E1 by reflexivity.
    assert (2 ^ 971 < 2 ^ 1023) as E2 by reflexivity.
    nia.
Qed.

(** The division on a few quotients: [1 / 3] is [0.333...] with a 53-bit
    significand; a tie goes to the even significand; the largest finite
    double is [2 ** 1024 - 2 ** 971], and half an ulp above it the division
    raises; a quotient below half the least subnormal is [0.0]. *)
Lemma true_divide_examples :
  true_divide 1 3 = Some (Qmake 6004799503160661 (2 ^ 54))
  /\ true_divide (2 ^ 53 + 1) 1 = Some (inject_Z (2 ^ 53))
  /\ true_divide (2 ^ 53 + 3) 1 = Some (inject_Z (2 ^ 53 + 4))
  /\ true_divide (2 ^ 1024 - 2 ^ 971) 1 = Some (inject_Z (2 ^ 1024 - 2 ^ 971))
  /\ true_divide (2 ^ 1024 - 2 ^ 970 - 1) 1 = Some (inject_Z (2 ^ 1024 - 2 ^ 971))
  /\ true_divide (2 ^ 1024 - 2 ^ 970) 1 = None
  /\ true_divide (10 ^ 400 - 1) 1 = None
  /\ true_divide 1 (2 ^ 1080) = Some (Qmake 0 (2 ^ 1074)).
Proof. repeat split; vm_compute; reflexivity. Qed.

(** An average of at most [bound] per request is computed without
    overflow. *)
Lemma average_in_range (total : Z) (q : list Z) (bound : Z) :
  (q <> [] -> 0 <= total <= Z.of_nat (length q) * bound) ->
  bound < 2 ^ 1023 ->
  is_Some (average total q).
Proof.
  intros Htotal Hbound. destruct q as [|x q]; [cbn; eauto|].
  destruct Htotal as [H0 H1]; [done|].
  unfold average. apply true_divide_in_range; [cbn [length]; lia|].
  rewrite Z.abs_eq by exact H0.
  assert (0 < Z.of_nat (length (x :: q))) as Hn by (cbn [length]; lia).
  revert H1 Hbound Hn. generalize (2 ^ 1023). generalize (Z.of_nat (length (x :: q))).
  intros n B H1 Hbound Hn. nia.
Qed.

Lemma conclude_in_range name dir (q : list Z) (s : State) (bound : Z) :
  (q <> [] -> 0 <= st_total_movement s <= Z.of_nat (length q) * bound) ->
  bound < 2 ^ 1023 ->
  exists r, conclude name dir q s = Returns r.
Proof.
  intros Htotal Hbound. unfold conclude.
  destruct (average_in_range _ _ _ Htotal Hbound) as [v ->]. eauto.
Qed.

(** A walk on the disk costs at most its width for each step. *)
Lemma walk_bounded (total : Z) (l : list Z) : forall h,
  in_range total h -> Forall (in_range total) l ->
  0 <= sum (walk h l) <= Z.of_nat (length l) * (total - 1).
Proof.
  induction l as [|x l IH]; intros h Hh Hl; [cbn; lia|].
  apply Forall_cons in Hl as [Hx Hl]. specialize (IH x Hx Hl).
  change (sum (walk h (x :: l))) with (Z.abs (h - x) + sum (walk x l)).
  cbn [length]. rewrite Nat2Z.inj_succ. unfold in_range in *. nia.
Qed.

(** X21.  On a valid disk of at most [2 ** 1022] cylinders the four
    algorithms return: SSTF, SCAN and C-SCAN leave their loops within
    [len(requests) + 1] iterations, and the average seek, at most twice the
    width of the disk, is within the float range, so that the division does
    not raise. *)
Theorem schedulers_return_on_valid_disks (d : Disk) (dir : string) (fuel : nat) :
  valid d -> total_cylinders d <= 2 ^ 1022 ->
  (length (request_queue d) + 1 <= fuel)%nat ->
  (exists r, fcfs_schedule d = Returns r)
  /\ (exists r, sstf_schedule fuel d = Returns r)
  /\ (exists r, scan_schedule fuel d dir = Returns r)
  /\ (exists r, c_scan_schedule fuel d dir = Returns r).
Proof.
  intros Hvalid Hwidth Hfuel.
  pose proof (valid_geometry d Hvalid) as Hgeometry.
  assert (2 ^ 1023 = 2 * 2 ^ 1022) as Epow by reflexivity.
  assert (total_cylinders d - 1 < 2 ^ 1023) as Hone by lia.
  assert (2 * (total_cylinders d - 1) < 2 ^ 1023) as Htwo by lia.
  destruct (sweep_totals_bounded d dir Hvalid) as [Hscan Hc_scan].
  assert (forall q : list Z, q <> [] -> 1 <= Z.of_nat (length q)) as Hlen.
  { intros [|x q] Hq; [done|]. cbn [length]. lia. }
  split; [|split; [|split]].
  - apply (conclude_in_range _ _ _ _ (total_cylinders d - 1)); [|exact Hone].
    intros _. rewrite visit_all_eq. state_fields.
    apply walk_bounded; [apply (valid_head d Hvalid)|apply (valid_requests d Hvalid)].
  - destruct (sstf_loop_order fuel (initial d ""))
      as (s' & tail & Hrun & Hseq & Hord); [cbn; lia|].
    rewrite (sstf_schedule_ends _ _ _ Hrun).
    apply (conclude_in_range _ _ _ _ (total_cylinders d - 1)); [|exact Hone].
    intros _. destruct (sstf_loop_tallied _ _ _ Hrun) as (Hm & Ht & _).
    apply sstf_order_Permutation in Hord. cbn in Hseq, Hord.
    rewrite Ht, Hm, Hseq, <- (Permutation_length Hord).
    apply walk_bounded; [apply (valid_head d Hvalid)|].
    rewrite Hord. apply (valid_requests d Hvalid).
  - rewrite (scan_schedule_valid d dir fuel Hvalid Hfuel).
    apply (conclude_in_range _ _ _ _ (2 * (total_cylinders d - 1))); [|exact Htwo].
    intros Hq%Hlen. nia.
  - rewrite (c_scan_schedule_valid d dir fuel Hvalid Hfuel).
    apply (conclude_in_range _ _ _ _ (2 * (total_cylinders d - 1))); [|exact Htwo].
    intros Hq%Hlen. nia.
Qed.

Lemma schedulers_return_on_valid_disks_witness :
  let d := example_disk in
  valid d /\ total_cylinders d <= 2 ^ 1022
  /\ (length (request_queue d) + 1 <= 8)%nat
  /\ (exists r, fcfs_schedule d = Returns r)
  /\ (exists r, sstf_schedule 8 d = Returns r)
  /\ (exists r, scan_schedule 8 d "left" = Returns r)
  /\ (exists r, c_scan_schedule 8 d "left" = Returns r).
Proof.
  split; [exact example_disk_valid|].
  split; [apply Z.leb_le; reflexivity|]. split; [simpl; lia|].
  apply (schedulers_return_on_valid_disks example_disk "left" 8);
    [exact example_disk_valid | apply Z.leb_le; reflexivity | simpl; lia].
Defined.

(** X22.  The bound matters.  On the valid disk of [10 ** 400] cylinders
    with the head on cylinder 0 and one request for the last cylinder, each
    of the four algorithms leaves its loop and then raises [OverflowError]
    at the division that computes the average seek. *)
Theorem average_overflows_on_wide_disk :
  valid wide_disk
  /\ fcfs_schedule wide_disk
     = Raises "OverflowError" "integer division result too large for a float"
  /\ sstf_schedule 2 wide_disk
     = Raises "OverflowError" "integer division result too large for a float"
  /\ scan_schedule 2 wide_disk "right"
     = Raises "OverflowError" "integer division result too large for a float"
  /\ c_scan_schedule 2 wide_disk "right"
     = Raises "OverflowError" "integer division result too large for a float".
Proof.
  split.
  - assert (0 < 10 ^ 400) as Hpos by reflexivity.
    split; [exact Hpos|split; cbn [wide_disk current_head total_cylinders]; lia|].
    constructor; [|constructor].
    split; cbn [wide_disk current_head total_cylinders]; lia.
  - repeat split; vm_compute; reflexivity.
Qed.
